(** * loop_tool: the cursor-driven agent over the loop-tree mutation engine

    Shallow embedding of [include/loop_tool/agent.h] (class [LoopTreeAgent]).
    The agent holds a loop tree [lt] and a cursor [cursor]; every member
    function is a state transformer over that pair that either returns or
    throws a C++ exception.  The loop tree itself, the mutation engine
    ([mutate.h]), the IR ([ir.h]) and the graph serializer
    ([serialization.h]) are not part of the sources at hand: the agent is
    written over an [Engine] interface, and a second development models the
    engine after the prose specification. *)

From Stdlib Require Import ZArith List String Ascii Bool Lia Sorted.
From Stdlib Require OrderedTypeEx.
Import ListNotations.

Set Warnings "-register-all".

Local Open Scope string_scope.
Local Open Scope Z_scope.

(* ================================================================== *)
(** ** Exceptions and results *)
(* ================================================================== *)

(** The specification classifies failures by their origin.  [Defect]
    stands for any other [std::runtime_error].  The kind is a label on
    the model's [runtime_error]: the C++ exception carries its text only,
    and no handler can tell one kind from another. *)
Inductive error_kind : Type :=
| UnknownAction
| UnknownMetric
| IllegalMutation
| LoweringUnsupported
| MalformedSerialization
| Defect.

(** The C++ exception classes the agent can meet.  [ASSERT] (error.h)
    throws [std::runtime_error]; [std::stoi], [std::string::substr] and
    [std::map::at] throw members of the [std::logic_error] family, which a
    handler for [std::runtime_error] does not catch. *)
Inductive exn : Type :=
| runtime_error (kind : error_kind) (what : string)
| invalid_argument (what : string)
| out_of_range (what : string).

Definition is_runtime_error (e : exn) : bool :=
  match e with
  | runtime_error _ _ => true
  | _ => false
  end.

Definition kind_of (e : exn) : option error_kind :=
  match e with
  | runtime_error k _ => Some k
  | _ => None
  end.

Inductive res (A : Type) : Type :=
| Ok (a : A)
| Throw (e : exn).
Arguments Ok {A} a.
Arguments Throw {A} e.

Definition res_bind {A B} (r : res A) (k : A -> res B) : res B :=
  match r with
  | Ok a => k a
  | Throw e => Throw e
  end.

Definition res_map {A B} (f : A -> B) (r : res A) : res B :=
  res_bind r (fun a => Ok (f a)).

Definition succeeds {A} (r : res A) : bool :=
  match r with
  | Ok _ => true
  | Throw _ => false
  end.

(* ================================================================== *)
(** ** Machine integers and strings *)
(* ================================================================== *)

(** [LoopTree::TreeRef] is an [int]. *)
Definition TreeRef : Type := Z.

Definition INT_MIN : Z := - 2 ^ 31.
Definition INT_MAX : Z := 2 ^ 31 - 1.
Definition in_int_range (z : Z) : bool := (INT_MIN <=? z) && (z <=? INT_MAX).

(** Conversion of a [size_t] to [int]: reduction modulo 2^32 into the
    signed range. *)
Definition to_int (z : Z) : Z := (z + 2 ^ 31) mod 2 ^ 32 - 2 ^ 31.

(** Conversion of an [int] to [size_t]. *)
Definition to_size_t (z : Z) : Z := z mod 2 ^ 64.

(** [std::string::npos]. *)
Definition npos : Z := 2 ^ 64 - 1.

Definition nl_char : ascii := ascii_of_nat 10.
Definition nl : string := String nl_char EmptyString.

(** [s.find(c)]: index of the first occurrence, or [npos]. *)
Fixpoint find_from (c : ascii) (s : string) (i : Z) : Z :=
  match s with
  | EmptyString => npos
  | String d r => if Ascii.eqb d c then i else find_from c r (i + 1)
  end.

Definition find (c : ascii) (s : string) : Z := find_from c s 0.

Definition strlen (s : string) : Z := Z.of_nat (String.length s).

(** [s.substr(pos, count)] with both arguments already of type [size_t]:
    throws [std::out_of_range] when [pos > size()], otherwise the count is
    clipped to the characters available. *)
Definition substr (s : string) (pos count : Z) : res string :=
  if strlen s <? pos then Throw (out_of_range "basic_string::substr")
  else Ok (String.substring (Z.to_nat pos)
                            (Z.to_nat (Z.min count (strlen s - pos))) s).

(** *** [std::to_string(int)] *)

Definition digit_char (d : N) : ascii := ascii_of_N (48 + d).

(** Decimal digits of [n], least significant first.  [fuel] bounds the
    number of digits produced; the number of binary digits of [n] is
    always enough. *)
Fixpoint digits_rev (fuel : nat) (n : N) : list ascii :=
  match fuel with
  | O => []
  | S f =>
      digit_char (n mod 10) ::
      (if (n / 10 =? 0)%N then [] else digits_rev f (n / 10)%N)
  end.

Definition string_of_N (n : N) : string :=
  string_of_list_ascii (rev (digits_rev (S (N.to_nat (N.log2 n))) n)).

Definition to_string (z : Z) : string :=
  if z <? 0 then String "-"%char (string_of_N (Z.to_N (- z)))
  else string_of_N (Z.to_N z).

(** *** [std::stoi(str)] (base 10, no position output) *)

(** [isspace] in the C locale. *)
Definition is_space (c : ascii) : bool :=
  let n := N_of_ascii c in
  ((n =? 32) || ((9 <=? n) && (n <=? 13)))%N.

Definition is_digit (c : ascii) : bool :=
  let n := N_of_ascii c in
  ((48 <=? n) && (n <=? 57))%N.

Definition digit_val (c : ascii) : Z := Z.of_N (N_of_ascii c) - 48.

Fixpoint skip_space (s : string) : string :=
  match s with
  | String c r => if is_space c then skip_space r else s
  | EmptyString => s
  end.

(** Reads the longest run of digits at the head of [s]; [acc] is the
    value read so far, [None] while no digit has been seen. *)
Fixpoint read_digits (s : string) (acc : option Z) : option Z :=
  match s with
  | String c r =>
      if is_digit c
      then read_digits r (Some (10 * match acc with Some a => a | None => 0 end
                                + digit_val c))
      else acc
  | EmptyString => acc
  end.

Definition read_sign (s : string) : bool * string :=
  match s with
  | String "-"%char r => (true, r)
  | String "+"%char r => (false, r)
  | _ => (false, s)
  end.

Definition stoi (s : string) : res Z :=
  let (neg, body) := read_sign (skip_space s) in
  match read_digits body None with
  | None => Throw (invalid_argument "stoi")
  | Some v =>
      let v := if neg then - v else v in
      if in_int_range v then Ok v else Throw (out_of_range "stoi")
  end.

(** *** Vocabulary for statements about these functions *)

Definition digit_chars : list ascii :=
  ["0"; "1"; "2"; "3"; "4"; "5"; "6"; "7"; "8"; "9"]%char.

(** The value of a run of digit characters read after [a]. *)
Definition eat (l : list ascii) (a : Z) : Z :=
  fold_left (fun a c => 10 * a + digit_val c) l a.

(** The characters of the numeral written for [n]. *)
Definition numeral (n : N) : list ascii :=
  rev (digits_rev (S (N.to_nat (N.log2 n))) n).

(** The text of [to_string z] as a list of characters. *)
Definition to_chars (z : Z) : list ascii :=
  if z <? 0 then "-"%char :: numeral (Z.to_N (- z)) else numeral (Z.to_N z).

(** The text in front of the first newline; the whole text when it has
    none. *)
Fixpoint first_line (s : string) : string :=
  match s with
  | EmptyString => EmptyString
  | String c r =>
      if Ascii.eqb c nl_char then EmptyString else String c (first_line r)
  end.

(** The text behind the first newline; the whole text when it has
    none. *)
Fixpoint behind_nl (s : string) : option string :=
  match s with
  | EmptyString => None
  | String c r => if Ascii.eqb c nl_char then Some r else behind_nl r
  end.

Definition after_first_line (s : string) : string :=
  match behind_nl s with
  | Some r => r
  | None => s
  end.

(** After white space and an optional sign the text goes on with a
    decimal digit. *)
Definition leading_int (s : string) : bool :=
  match snd (read_sign (skip_space s)) with
  | String c _ => is_digit c
  | EmptyString => false
  end.

(** The integer a text begins with: the value, with its sign, of the
    longest run of decimal digits that follows optional white space and an
    optional sign; none when no digit stands there.  The value is not
    bounded. *)
Definition leading_value (s : string) : option Z :=
  let (neg, body) := read_sign (skip_space s) in
  match read_digits body None with
  | None => None
  | Some v => Some (if neg then - v else v)
  end.

(** The text starts with a decimal digit. *)
Definition head_is_digit (s : string) : bool :=
  match s with
  | String c _ => is_digit c
  | EmptyString => false
  end.

(** The order of [std::string] keys: [operator<], lexicographic on the
    character codes. *)
Definition key_lt (x y : string) : Prop := String.compare x y = Lt.

(* ================================================================== *)
(** ** [std::map<std::string, T>] *)
(* ================================================================== *)

(** A [std::map] keeps its entries ordered by key; iteration visits them
    in that order.  The model is an association list kept sorted, built by
    inserting the entries of the initializer list one after the other (an
    entry whose key is already present is dropped). *)
Fixpoint map_insert {T} (k : string) (v : T) (m : list (string * T))
  : list (string * T) :=
  match m with
  | [] => [(k, v)]
  | (k', v') :: rest =>
      match String.compare k k' with
      | Lt => (k, v) :: m
      | Eq => m
      | Gt => (k', v') :: map_insert k v rest
      end
  end.

Definition map_of_list {T} (init : list (string * T)) : list (string * T) :=
  fold_left (fun m kv => map_insert (fst kv) (snd kv) m) init [].

Fixpoint map_find {T} (k : string) (m : list (string * T)) : option T :=
  match m with
  | [] => None
  | (k', v) :: rest => if String.eqb k k' then Some v else map_find k rest
  end.

(** [m.count(k)] *)
Definition map_count {T} (k : string) (m : list (string * T)) : Z :=
  match map_find k m with
  | Some _ => 1
  | None => 0
  end.

(** [m.at(k)] *)
Definition map_at {T} (k : string) (m : list (string * T)) : res T :=
  match map_find k m with
  | Some v => Ok v
  | None => Throw (out_of_range "map::at")
  end.

Definition map_keys {T} (m : list (string * T)) : list string := map fst m.

(* ================================================================== *)
(** ** The engine interface consumed by the agent *)
(* ================================================================== *)

Module loop_tool.

(** Everything [agent.h] calls in namespace [loop_tool] and on [LoopTree].
    The headers declaring these ([ir.h], [mutate.h], [serialization.h],
    [error.h]) are not among the sources, so each operation is a parameter
    that either returns or throws.  The operations are functions of their
    arguments: the engine produces new trees and never writes to the tree
    it is given (specification, sections 2 and 4.3).

    - [lt_ir] is the member [lt.ir], [LoopTree_of] the constructor
      [LoopTree(const IR&)], taken not to throw;
    - [input_at lt ref i] is the indexed read [get_inputs(lt, ref)[i]]:
      the container type is declared in [mutate.h], so the read, and what
      it does when there is no [i]-th input, belongs to the engine;
    - the three metrics are the values after the cast to [double].
      [FLOPs] is a static count.  [FLOPS] and [eval_runtime] lower the
      tree, run it and read the clock: what they return depends on the run
      they observe, a value of type [Run], and two runs on one tree need
      not agree;
    - [assert_head cond] is the text [ASSERT(cond)] itself puts in front of
      whatever is streamed into it. *)
Class Engine : Type := {
  IR : Type;
  LoopTree : Type;
  NodeRef : Type;
  double : Type;
  Run : Type;
  lt_ir : LoopTree -> IR;
  LoopTree_of : IR -> LoopTree;
  annotation : LoopTree -> TreeRef -> res string;
  dump : LoopTree -> (TreeRef -> string) -> string;
  previous_ref : LoopTree -> TreeRef -> res TreeRef;
  next_ref : LoopTree -> TreeRef -> res TreeRef;
  try_swap : LoopTree -> TreeRef -> TreeRef -> res LoopTree;
  split : LoopTree -> TreeRef -> Z -> res LoopTree;
  merge : LoopTree -> TreeRef -> res LoopTree;
  annotate : LoopTree -> TreeRef -> string -> res LoopTree;
  input_at : LoopTree -> TreeRef -> nat -> res NodeRef;
  copy_input : LoopTree -> TreeRef -> NodeRef -> res LoopTree;
  increase_reuse : LoopTree -> TreeRef -> res LoopTree;
  decrease_reuse : LoopTree -> TreeRef -> res LoopTree;
  FLOPS : Run -> LoopTree -> res double;
  FLOPs : LoopTree -> res double;
  eval_runtime : Run -> LoopTree -> res double;
  serialize : IR -> string;
  deserialize : string -> res IR;
  assert_head : string -> string
}.

(** Modelled from the spec: the macro [ASSERT] of [error.h].
    [ASSERT(cond) << streamed] does nothing when the condition holds;
    otherwise it throws a [std::runtime_error] whose text is the macro's
    own head followed by what was streamed. *)
Definition ASSERT `{Engine} (cond : bool) (cond_text : string)
           (k : error_kind) (streamed : string) : res unit :=
  if cond then Ok tt
  else Throw (runtime_error k (assert_head cond_text ++ streamed)).

End loop_tool.

(* ================================================================== *)
(** ** [class LoopTreeAgent] *)
(* ================================================================== *)

Module LoopTreeAgent.

Section Agent.
Context {E : loop_tool.Engine}.

(** The two data members. *)
Record agent : Type := mk { lt : loop_tool.LoopTree; cursor : TreeRef }.

(** A member function: runs on the object, may assign its members, and
    returns or throws.  The object survives a throw in the state it had
    when the exception left the function. *)
Definition M (A : Type) : Type := agent -> res A * agent.

Definition ret {A} (x : A) : M A := fun a => (Ok x, a).

Definition bind {A B} (m : M A) (k : A -> M B) : M B :=
  fun a =>
    match m a with
    | (Ok x, a') => k x a'
    | (Throw e, a') => (Throw e, a')
    end.

(** Evaluation of an expression over the current members. *)
Definition call {A} (f : agent -> res A) : M A := fun a => (f a, a).

(** [lt = t;] and [cursor = c;] *)
Definition set_lt (t : loop_tool.LoopTree) : M unit :=
  fun a => (Ok tt, mk t (cursor a)).
Definition set_cursor (c : TreeRef) : M unit :=
  fun a => (Ok tt, mk (lt a) c).

(** [try { body } catch (std::runtime_error e) { handler }] *)
Definition try_catch_runtime_error {A} (body : M A) (handler : exn -> M A)
  : M A :=
  fun a =>
    match body a with
    | (Ok x, a') => (Ok x, a')
    | (Throw e, a') =>
        if is_runtime_error e then handler e a' else (Throw e, a')
    end.

Notation "x <- m ;; k" := (bind m (fun x => k))
  (at level 61, m at next level, right associativity).
Notation "m ;;; k" := (bind m (fun _ => k))
  (at level 61, right associativity).

Definition ActionFn : Type := M unit.

(** A metric is evaluated against the run of the backend that the call
    observes.  The C++ member functions have no such parameter: the run is
    whatever the machine does at the time of the call. *)
Definition EvalFn : Type := loop_tool.Run -> M loop_tool.double.

(** *** Actions *)

Definition up : ActionFn :=
  c <- call (fun a => loop_tool.previous_ref (lt a) (cursor a)) ;; set_cursor c.

Definition down : ActionFn :=
  c <- call (fun a => loop_tool.next_ref (lt a) (cursor a)) ;; set_cursor c.

Definition swap_up : ActionFn :=
  t <- call (fun a =>
         res_bind (loop_tool.previous_ref (lt a) (cursor a))
                  (loop_tool.try_swap (lt a) (cursor a))) ;;
  set_lt t.

Definition swap_down : ActionFn :=
  t <- call (fun a =>
         res_bind (loop_tool.next_ref (lt a) (cursor a))
                  (loop_tool.try_swap (lt a) (cursor a))) ;;
  set_lt t.

Definition split (split_size : Z) : ActionFn :=
  t <- call (fun a => loop_tool.split (lt a) (cursor a) split_size) ;;
  set_lt t.

Definition split_2 : ActionFn := split 2.
Definition split_4 : ActionFn := split 4.
Definition split_8 : ActionFn := split 8.
Definition split_16 : ActionFn := split 16.
Definition split_32 : ActionFn := split 32.
Definition split_64 : ActionFn := split 64.
Definition split_128 : ActionFn := split 128.
Definition split_256 : ActionFn := split 256.

Definition merge : ActionFn :=
  t <- call (fun a => loop_tool.merge (lt a) (cursor a)) ;; set_lt t.

Definition annotate (annotation : string) : ActionFn :=
  current <- call (fun a => loop_tool.annotation (lt a) (cursor a)) ;;
  if String.eqb current annotation
  then t <- call (fun a =>
              loop_tool.annotate (lt a) (cursor a) EmptyString) ;;
       set_lt t
  else t <- call (fun a =>
              loop_tool.annotate (lt a) (cursor a) annotation) ;;
       set_lt t.

Definition vectorize : ActionFn := annotate "vectorize".
Definition unroll : ActionFn := annotate "unroll".

Definition copy_input_n (i : nat) : ActionFn :=
  input_id <- call (fun a => loop_tool.input_at (lt a) (cursor a) i) ;;
  t <- call (fun a => loop_tool.copy_input (lt a) (cursor a) input_id) ;;
  set_lt t.

Definition copy_input_0 : ActionFn := copy_input_n 0.
Definition copy_input_1 : ActionFn := copy_input_n 1.

Definition increase_reuse : ActionFn :=
  t <- call (fun a => loop_tool.increase_reuse (lt a) (cursor a)) ;;
  set_lt t.

Definition decrease_reuse : ActionFn :=
  t <- call (fun a => loop_tool.decrease_reuse (lt a) (cursor a)) ;;
  set_lt t.

(** *** Metrics *)

Definition FLOPS : EvalFn :=
  fun run => call (fun a => loop_tool.FLOPS run (lt a)).
Definition FLOPs : EvalFn :=
  fun _ => call (fun a => loop_tool.FLOPs (lt a)).
Definition seconds : EvalFn :=
  fun run => call (fun a => loop_tool.eval_runtime run (lt a)).

(** *** The two name tables *)

(** The initializer list of [actions_fn], in the order of the source. *)
Definition actions_init : list (string * ActionFn) :=
  [ ("up", up);
    ("down", down);
    ("swap_down", swap_down);
    ("swap_up", swap_up);
    ("split_2", split_2);
    ("split_4", split_4);
    ("split_8", split_8);
    ("split_16", split_16);
    ("split_32", split_32);
    ("split_64", split_64);
    ("split_128", split_128);
    ("split_256", split_256);
    ("merge", merge);
    ("vectorize", vectorize);
    ("unroll", unroll);
    ("copy_input_0", copy_input_0);
    ("copy_input_1", copy_input_1);
    ("increase_reuse", increase_reuse);
    ("decrease_reuse", decrease_reuse) ].

Definition actions_fn : list (string * ActionFn) := map_of_list actions_init.

Definition metrics_init : list (string * EvalFn) :=
  [ ("FLOPs", FLOPs);
    ("FLOPS", FLOPS);
    ("seconds", seconds) ].

Definition metrics_fn : list (string * EvalFn) := map_of_list metrics_init.

(** *** Auxiliary functions *)

Definition endl : string := nl.

Definition help_actions : string :=
  fold_left (fun ss name => ss ++ name ++ endl) (map_keys actions_fn)
            ("Available actions are:" ++ endl).

Definition help_metrics : string :=
  fold_left (fun ss name => ss ++ name ++ endl) (map_keys metrics_fn)
            ("Available metrics are:" ++ endl).

(** *** Public API *)

Definition apply_action (action : string) : M unit :=
  call (fun _ => loop_tool.ASSERT (0 <? map_count action actions_fn)
                        "actions_fn.count(action) > 0"
                        UnknownAction help_actions) ;;;
  f <- call (fun _ => map_at action actions_fn) ;;
  f.

Definition eval (run : loop_tool.Run) (metric : string)
  : M loop_tool.double :=
  call (fun _ => loop_tool.ASSERT (0 <? map_count metric metrics_fn)
                        "metrics_fn.count(metric) > 0"
                        UnknownMetric help_metrics) ;;;
  f <- call (fun _ => map_at metric metrics_fn) ;;
  f run.

(** One turn of the loop of [get_available_actions]. *)
Definition trial (lt_copy : loop_tool.LoopTree) (cursor_copy : TreeRef)
           (action : string) (available_actions : list string)
  : M (list string) :=
  available <- try_catch_runtime_error
                 (apply_action action ;;; ret (available_actions ++ [action])%list)
                 (fun _ => ret available_actions) ;;
  set_lt lt_copy ;;;
  set_cursor cursor_copy ;;;
  ret available.

Fixpoint trials (lt_copy : loop_tool.LoopTree) (cursor_copy : TreeRef)
         (actions : list string) (available_actions : list string)
  : M (list string) :=
  match actions with
  | [] => ret available_actions
  | action :: rest =>
      available <- trial lt_copy cursor_copy action available_actions ;;
      trials lt_copy cursor_copy rest available
  end.

Definition get_available_actions : M (list string) :=
  fun a => trials (lt a) (cursor a) (map_keys actions_fn) [] a.

Definition serialize (a : agent) : string :=
  to_string (cursor a) ++ nl ++
  loop_tool.serialize (loop_tool.lt_ir (lt a)).

(** [deserialize] does not read the object it is called on.  The line it
    prints to [std::cout] is not modelled.  [delimiter_pos] is an [int];
    both [substr] arguments are converted back to [size_t]. *)
Definition deserialize (ser : string) : res agent :=
  let delimiter_pos := to_int (find nl_char ser) in
  res_bind (substr ser 0 (to_size_t delimiter_pos)) (fun first_line =>
  res_bind (stoi first_line) (fun cursor =>
  res_bind (substr ser (to_size_t (to_int (delimiter_pos + 1))) (strlen ser))
           (fun rest =>
  res_bind (loop_tool.deserialize rest) (fun ir =>
  Ok (mk (loop_tool.LoopTree_of ir) cursor))))).

Definition dump (a : agent) : string :=
  loop_tool.dump (lt a)
       (fun ref =>
          if ref =? cursor a
          then "<<<<<< cursor (line " ++ to_string (cursor a) ++ " )"
          else EmptyString).

(** The copy constructor. *)
Definition copy (other : agent) : agent :=
  mk (loop_tool.LoopTree_of (loop_tool.lt_ir (lt other))) (cursor other).

End Agent.

Arguments agent : clear implicits.
Arguments M : clear implicits.

End LoopTreeAgent.

(* ================================================================== *)
(** ** Vocabulary for statements about the agent *)
(* ================================================================== *)

Section AgentVocabulary.
Import LoopTreeAgent.
Context {E : loop_tool.Engine}.

(** A member function is atomic when a throw leaves the object as it
    found it. *)
Definition atomic {A} (m : M E A) : Prop :=
  forall a e a', m a = (Throw e, a') -> a' = a.

Definition keeps_lt {A} (m : M E A) : Prop :=
  forall a, lt (snd (m a)) = lt a.

Definition keeps_cursor {A} (m : M E A) : Prop :=
  forall a, cursor (snd (m a)) = cursor a.

(** The result of the trial loop, read off the outcomes of the single
    actions tried from the state [a]. *)
Fixpoint scan (a : agent E) (names : list string) (available : list string)
  : res (list string) :=
  match names with
  | [] => Ok available
  | n :: rest =>
      match fst (apply_action n a) with
      | Ok _ => scan a rest (available ++ [n])%list
      | Throw e => if is_runtime_error e then scan a rest available else Throw e
      end
  end.

Definition trial_ok (a : agent E) (n : string) : bool :=
  succeeds (fst (apply_action n a)).

(** No trial from [a] of an action in [names] ends in an exception that the
    handler lets through. *)
Definition nothing_escapes (a : agent E) (names : list string) : Prop :=
  forall n e, In n names ->
    fst (apply_action n a) = Throw e -> is_runtime_error e = true.

(** The action names as the interface lists them. *)
Definition registered_names : list string :=
  [ "up"; "down"; "swap_down"; "swap_up";
    "split_2"; "split_4"; "split_8"; "split_16";
    "split_32"; "split_64"; "split_128"; "split_256";
    "merge"; "vectorize"; "unroll";
    "copy_input_0"; "copy_input_1"; "increase_reuse"; "decrease_reuse" ].

(** The metric names as the interface lists them. *)
Definition metric_names : list string := [ "FLOPs"; "FLOPS"; "seconds" ].

(** The fixed-size wrappers over [split]. *)
Definition split_sizes : list (string * Z) :=
  [ ("split_2", 2); ("split_4", 4); ("split_8", 8); ("split_16", 16);
    ("split_32", 32); ("split_64", 64); ("split_128", 128);
    ("split_256", 256) ].

(** The tree [annotate(annotation)] asks the engine for: the annotation
    is cleared when the node already carries it and set otherwise. *)
Definition toggled (annotation : string) (a : agent E)
  : res loop_tool.LoopTree :=
  res_bind (loop_tool.annotation (lt a) (cursor a)) (fun current =>
    loop_tool.annotate (lt a) (cursor a)
      (if String.eqb current annotation then EmptyString else annotation)).

(** The seventeen actions other than [up] and [down], each with the tree
    it asks the engine for on the agent's tree and cursor. *)
Definition tree_calls : list (string * (agent E -> res loop_tool.LoopTree)) :=
  [ ("swap_down", fun a =>
       res_bind (loop_tool.next_ref (lt a) (cursor a))
                (loop_tool.try_swap (lt a) (cursor a)));
    ("swap_up", fun a =>
       res_bind (loop_tool.previous_ref (lt a) (cursor a))
                (loop_tool.try_swap (lt a) (cursor a)));
    ("split_2", fun a => loop_tool.split (lt a) (cursor a) 2);
    ("split_4", fun a => loop_tool.split (lt a) (cursor a) 4);
    ("split_8", fun a => loop_tool.split (lt a) (cursor a) 8);
    ("split_16", fun a => loop_tool.split (lt a) (cursor a) 16);
    ("split_32", fun a => loop_tool.split (lt a) (cursor a) 32);
    ("split_64", fun a => loop_tool.split (lt a) (cursor a) 64);
    ("split_128", fun a => loop_tool.split (lt a) (cursor a) 128);
    ("split_256", fun a => loop_tool.split (lt a) (cursor a) 256);
    ("merge", fun a => loop_tool.merge (lt a) (cursor a));
    ("vectorize", toggled "vectorize");
    ("unroll", toggled "unroll");
    ("copy_input_0", fun a =>
       res_bind (loop_tool.input_at (lt a) (cursor a) 0)
                (loop_tool.copy_input (lt a) (cursor a)));
    ("copy_input_1", fun a =>
       res_bind (loop_tool.input_at (lt a) (cursor a) 1)
                (loop_tool.copy_input (lt a) (cursor a)));
    ("increase_reuse", fun a => loop_tool.increase_reuse (lt a) (cursor a));
    ("decrease_reuse", fun a => loop_tool.decrease_reuse (lt a) (cursor a)) ].

(** The lines a help listing writes after its heading. *)
Definition listing (names : list string) : string :=
  fold_right (fun name s => name ++ endl ++ s) EmptyString names.

(** Modelled from the spec: the contract of the serialization component
    ([serialization.h], not among the sources) on the graph of a tree [t]:
    reading back the text written for it succeeds, and the tree built from
    the result is equivalent to [t]. *)
Definition graph_round_trips
           (equiv : loop_tool.LoopTree -> loop_tool.LoopTree -> Prop)
           (t : loop_tool.LoopTree) : Prop :=
  exists ir,
    loop_tool.deserialize (loop_tool.serialize (loop_tool.lt_ir t)) = Ok ir /\
    equiv (loop_tool.LoopTree_of ir) t.

End AgentVocabulary.

(* ================================================================== *)
(** ** The loop tree and mutation engine of the specification *)
(* ================================================================== *)

Module SpecEngine.

(** Modelled from the spec: the loop-tree data model (section 3).  A Loop
    node carries an iteration variable, an extent, a step and an
    annotation, and an ordered sequence of children; a Leaf node carries a
    compute operation of the dataflow graph and the loop variables it
    consumes.  [ir.h], which declares [LoopTree], is not among the
    sources. *)
Record loop : Type := mkloop {
  var : nat;
  extent : Z;
  step : Z;
  note : string
}.

Inductive node : Type :=
| Loop (l : loop) (children : list node)
| Leaf (op : nat) (vars : list nat).

(** A tree value is the sequence of its top-level nodes. *)
Definition tree : Type := list node.

Definition with_extent (e : Z) (l : loop) : loop :=
  mkloop (var l) e (step l) (note l).

Definition with_note (text : string) (l : loop) : loop :=
  mkloop (var l) (extent l) (step l) text.

(** Number of nodes of a subtree. *)
Fixpoint size_node (n : node) : nat :=
  match n with
  | Leaf _ _ => 1
  | Loop _ cs =>
      S ((fix go (cs : list node) : nat :=
            match cs with
            | [] => O
            | c :: rest => (size_node c + go rest)%nat
            end) cs)
  end.

Fixpoint size (t : list node) : nat :=
  match t with
  | [] => O
  | c :: rest => (size_node c + size rest)%nat
  end.

(** Modelled from the spec: a [TreeRef] is the position of a node in the
    tree's fixed depth-first, child-order-respecting linearization (4.1).
    [node_in n i] is the [i]-th node of the subtree [n], [n] itself being
    number 0. *)
Fixpoint node_in (n : node) (i : nat) : option node :=
  match i with
  | O => Some n
  | S j =>
      match n with
      | Leaf _ _ => None
      | Loop _ cs =>
          (fix go (cs : list node) (j : nat) : option node :=
             match cs with
             | [] => None
             | c :: rest =>
                 if (j <? size_node c)%nat then node_in c j
                 else go rest (j - size_node c)%nat
             end) cs j
      end
  end.

Fixpoint node_at (t : list node) (i : nat) : option node :=
  match t with
  | [] => None
  | c :: rest =>
      if (i <? size_node c)%nat then node_in c i
      else node_at rest (i - size_node c)%nat
  end.

Definition illegal {A} (why : string) : res A :=
  Throw (runtime_error IllegalMutation why).

(** The engine replaces the part of the tree that starts at a reference:
    [f] receives the node at position [i] followed by its later siblings
    and returns what takes their place.  [rewrite_in] descends into the
    children of [n]; position 0 there is the first child. *)
Fixpoint rewrite_in (f : list node -> res (list node)) (n : node) (i : nat)
  : res node :=
  match n with
  | Leaf _ _ => illegal "no such node"
  | Loop l cs =>
      res_map (Loop l)
        ((fix go (cs : list node) (i : nat) : res (list node) :=
            match cs with
            | [] => illegal "no such node"
            | c :: rest =>
                match i with
                | O => f cs
                | S j =>
                    if (i <? size_node c)%nat
                    then res_map (fun c' => c' :: rest) (rewrite_in f c j)
                    else res_map (cons c) (go rest (i - size_node c)%nat)
                end
            end) cs i)
  end.

Fixpoint rewrite_at (f : list node -> res (list node)) (t : list node)
         (i : nat) : res (list node) :=
  match t with
  | [] => illegal "no such node"
  | c :: rest =>
      match i with
      | O => f t
      | S j =>
          if (i <? size_node c)%nat
          then res_map (fun c' => c' :: rest) (rewrite_in f c j)
          else res_map (cons c) (rewrite_at f rest (i - size_node c)%nat)
      end
  end.

(** A rewrite of the referenced node alone. *)
Definition on_node (g : node -> res node) (here : list node)
  : res (list node) :=
  match here with
  | [] => illegal "no such node"
  | n :: rest => res_map (fun n' => n' :: rest) (g n)
  end.

(** A [TreeRef] is an [int]; no node has a negative one. *)
Definition at_ref {A} (ref : TreeRef) (k : nat -> res A) : res A :=
  if ref <? 0 then illegal "no such node" else k (Z.to_nat ref).

(** *** Navigation (4.2) *)

(** Modelled from the spec: [previous_ref] and [next_ref] return the
    reference immediately before and after [ref] in the linearization and
    fail at the first and last node; they do not wrap around. *)
Definition previous_ref (t : tree) (ref : TreeRef) : res TreeRef :=
  if (0 <? ref) && (ref <? Z.of_nat (size t)) then Ok (ref - 1)
  else illegal "no previous node".

Definition next_ref (t : tree) (ref : TreeRef) : res TreeRef :=
  if (0 <=? ref) && (ref + 1 <? Z.of_nat (size t)) then Ok (ref + 1)
  else illegal "no next node".

(** *** Mutation engine (4.3) *)

(** Modelled from the spec: [annotate] sets the annotation of a Loop node
    (the empty text clears it) and fails on a Leaf. *)
Definition annotate_node (text : string) (n : node) : res node :=
  match n with
  | Loop l cs => Ok (Loop (with_note text l) cs)
  | Leaf _ _ => illegal "annotate: not a loop"
  end.

Definition annotate (t : tree) (ref : TreeRef) (text : string) : res tree :=
  at_ref ref (rewrite_at (on_node (annotate_node text)) t).

(** Modelled from the spec: read access to a node's annotation (4.1).
    Only Loop nodes carry one. *)
Definition annotation (t : tree) (ref : TreeRef) : res string :=
  at_ref ref (fun i =>
    match node_at t i with
    | Some (Loop l _) => Ok (note l)
    | Some (Leaf _ _) => illegal "annotation: not a loop"
    | None => illegal "no such node"
    end).

(** Modelled from the spec: [merge] collapses a Loop node whose single
    child is a Loop node into one loop whose extent is the product of the
    two extents; it fails when the child is not a sole Loop node (so on
    every Leaf).  The merged loop keeps the outer loop's variable, step
    and annotation. *)
Definition merge_node (n : node) : res node :=
  match n with
  | Loop a [Loop b cs] => Ok (Loop (with_extent (extent a * extent b) a) cs)
  | _ => illegal "merge: the child is not a sole loop"
  end.

Definition merge (t : tree) (ref : TreeRef) : res tree :=
  at_ref ref (rewrite_at (on_node merge_node) t).

(** What the specification leaves to its external collaborators (the
    dataflow graph, the backend, the serialization component) or does not
    determine.  [split] and [try_swap] are among them: section 4.3 does
    not say how the remainder of a split that does not divide the extent
    is represented in a Loop node, nor which of two adjacent nodes' children
    move in a swap, and the data dependencies belong to the dataflow
    graph.  So are the metrics, the input-copy and reuse rewrites, the
    graph text, the rendering of a tree and the head of an assertion
    message.  [x_run] is a run of the backend, as observed by the two
    measured metrics. *)
Record External : Type := {
  x_double : Type;
  x_run : Type;
  x_try_swap : tree -> TreeRef -> TreeRef -> res tree;
  x_split : tree -> TreeRef -> Z -> res tree;
  x_input_at : tree -> TreeRef -> nat -> res nat;
  x_copy_input : tree -> TreeRef -> nat -> res tree;
  x_increase_reuse : tree -> TreeRef -> res tree;
  x_decrease_reuse : tree -> TreeRef -> res tree;
  x_FLOPS : x_run -> tree -> res x_double;
  x_FLOPs : tree -> res x_double;
  x_eval_runtime : x_run -> tree -> res x_double;
  x_serialize : tree -> string;
  x_deserialize : string -> res tree;
  x_dump : tree -> (TreeRef -> string) -> string;
  x_assert_head : string -> string
}.

Section Engine.
Variable X : External.

(** The tree is rebuilt from its dataflow graph; the model identifies the
    graph with the tree it determines. *)
#[export] Instance engine : loop_tool.Engine := {|
  loop_tool.IR := tree;
  loop_tool.LoopTree := tree;
  loop_tool.NodeRef := nat;
  loop_tool.double := x_double X;
  loop_tool.Run := x_run X;
  loop_tool.lt_ir := fun t => t;
  loop_tool.LoopTree_of := fun ir => ir;
  loop_tool.annotation := annotation;
  loop_tool.dump := x_dump X;
  loop_tool.previous_ref := previous_ref;
  loop_tool.next_ref := next_ref;
  loop_tool.try_swap := x_try_swap X;
  loop_tool.split := x_split X;
  loop_tool.merge := merge;
  loop_tool.annotate := annotate;
  loop_tool.input_at := x_input_at X;
  loop_tool.copy_input := x_copy_input X;
  loop_tool.increase_reuse := x_increase_reuse X;
  loop_tool.decrease_reuse := x_decrease_reuse X;
  loop_tool.FLOPS := x_FLOPS X;
  loop_tool.FLOPs := x_FLOPs X;
  loop_tool.eval_runtime := x_eval_runtime X;
  loop_tool.serialize := x_serialize X;
  loop_tool.deserialize := x_deserialize X;
  loop_tool.assert_head := x_assert_head X
|}.

End Engine.

End SpecEngine.

Section TreeVocabulary.
Import SpecEngine.

(** [focus t i here k]: the node with reference [i] in [t], followed by
    its later siblings, is [here], and [t] is [k here]: [k] puts a
    replacement for [here] back in its place. *)
Inductive focus : list node -> nat -> list node ->
                  (list node -> list node) -> Prop :=
| focus_here c rest :
    focus (c :: rest) 0 (c :: rest) (fun x => x)
| focus_down l cs rest j here k :
    focus cs j here k ->
    focus (Loop l cs :: rest) (S j) here (fun x => Loop l (k x) :: rest)
| focus_next c rest i here k :
    focus rest i here k ->
    focus (c :: rest) (size_node c + i) here (fun x => c :: k x).

(** The node a [TreeRef] refers to, if any. *)
Definition node_ref (t : tree) (ref : TreeRef) : option node :=
  if ref <? 0 then None else node_at t (Z.to_nat ref).

End TreeVocabulary.

(* ================================================================== *)
(** ** A concrete instance of the external collaborators *)
(* ================================================================== *)

Module Demo.
Import SpecEngine.

(** A line-oriented graph text: one node per line, in traversal order,
    each with its depth.  A Loop line reads [L depth var extent step note],
    a Leaf line [F depth op var ...]. *)
Inductive item : Type :=
| LoopItem (l : loop)
| LeafItem (op : nat) (vars : list nat).

Fixpoint flatten_node (d : nat) (n : node) : list (nat * item) :=
  match n with
  | Leaf op vs => [(d, LeafItem op vs)]
  | Loop l cs =>
      (d, LoopItem l) ::
      (fix go (cs : list node) : list (nat * item) :=
         match cs with
         | [] => []
         | c :: rest => (flatten_node (S d) c ++ go rest)%list
         end) cs
  end.

Fixpoint flatten (d : nat) (t : list node) : list (nat * item) :=
  match t with
  | [] => []
  | c :: rest => (flatten_node d c ++ flatten d rest)%list
  end.

Definition sp : string := " ".

Definition nat_text (n : nat) : string := to_string (Z.of_nat n).

Definition write_item (di : nat * item) : string :=
  match di with
  | (d, LoopItem l) =>
      "L " ++ nat_text d ++ sp ++ nat_text (var l) ++ sp ++
      to_string (extent l) ++ sp ++ to_string (step l) ++ sp ++ note l
  | (d, LeafItem op vs) =>
      "F " ++ nat_text d ++ sp ++ nat_text op ++
      fold_right (fun v s => sp ++ nat_text v ++ s) EmptyString vs
  end.

Definition write_graph (t : tree) : string :=
  fold_right (fun di s => write_item di ++ nl ++ s) EmptyString (flatten O t).

(** Splits [s] at every occurrence of [c]. *)
Fixpoint split_on (c : ascii) (s : string) : list string :=
  match s with
  | EmptyString => [EmptyString]
  | String d r =>
      match split_on c r with
      | [] => [String d EmptyString]
      | w :: ws => if Ascii.eqb d c then EmptyString :: w :: ws
                   else String d w :: ws
      end
  end.

Definition malformed {A} (why : string) : res A :=
  Throw (runtime_error MalformedSerialization why).

Definition read_nat (s : string) : res nat :=
  match stoi s with
  | Ok z => if z <? 0 then malformed "negative number" else Ok (Z.to_nat z)
  | Throw _ => malformed "not a number"
  end.

Definition read_int (s : string) : res Z :=
  match stoi s with
  | Ok z => Ok z
  | Throw _ => malformed "not a number"
  end.

Fixpoint read_nats (ws : list string) : res (list nat) :=
  match ws with
  | [] => Ok []
  | w :: rest =>
      res_bind (read_nat w) (fun n =>
      res_bind (read_nats rest) (fun ns => Ok (n :: ns)))
  end.

Definition join_sp (ws : list string) : string :=
  match ws with
  | [] => EmptyString
  | w :: rest => fold_left (fun s x => s ++ sp ++ x) rest w
  end.

Definition read_item (line : string) : res (nat * item) :=
  match split_on " "%char line with
  | "L" :: d :: v :: e :: s :: note =>
      res_bind (read_nat d) (fun d =>
      res_bind (read_nat v) (fun v =>
      res_bind (read_int e) (fun e =>
      res_bind (read_int s) (fun s =>
      Ok (d, LoopItem (mkloop v e s (join_sp note)))))))
  | "F" :: d :: op :: vs =>
      res_bind (read_nat d) (fun d =>
      res_bind (read_nat op) (fun op =>
      res_bind (read_nats vs) (fun vs => Ok (d, LeafItem op vs))))
  | _ => malformed "unknown line"
  end.

Fixpoint read_items (lines : list string) : res (list (nat * item)) :=
  match lines with
  | [] => Ok []
  | EmptyString :: rest => read_items rest
  | line :: rest =>
      res_bind (read_item line) (fun i =>
      res_bind (read_items rest) (fun more => Ok (i :: more)))
  end.

(** Rebuilds the nodes of depth [d] at the head of [items]; returns them
    with the items left over. *)
Fixpoint build (fuel : nat) (d : nat) (items : list (nat * item))
  : list node * list (nat * item) :=
  match fuel with
  | O => ([], items)
  | S fuel' =>
      match items with
      | [] => ([], [])
      | (d', i) :: rest =>
          if (d' =? d)%nat then
            match i with
            | LeafItem op vs =>
                let (sibs, left) := build fuel' d rest in
                (Leaf op vs :: sibs, left)
            | LoopItem l =>
                let (kids, left) := build fuel' (S d) rest in
                let (sibs, left') := build fuel' d left in
                (Loop l kids :: sibs, left')
            end
          else ([], items)
      end
  end.

Definition read_graph (text : string) : res tree :=
  res_bind (read_items (split_on nl_char text)) (fun items =>
  match build (S (List.length items)) O items with
  | (t, []) => Ok t
  | (_, _ :: _) => malformed "bad nesting"
  end).

Definition describe (di : nat * item) : string :=
  match di with
  | (d, LoopItem l) =>
      "for " ++ nat_text (var l) ++ " in " ++ to_string (extent l) ++
      (if String.eqb (note l) EmptyString then EmptyString
       else " [" ++ note l ++ "]")
  | (d, LeafItem op _) => "%" ++ nat_text op
  end.

Fixpoint render_lines (items : list (nat * item)) (ref : Z)
         (mark : TreeRef -> string) : string :=
  match items with
  | [] => EmptyString
  | di :: rest =>
      describe di ++ sp ++ mark ref ++ nl ++ render_lines rest (ref + 1) mark
  end.

Definition render (t : tree) (mark : TreeRef -> string) : string :=
  render_lines (flatten O t) 0 mark.

Definition unsupported {A} (why : string) : res A :=
  Throw (runtime_error LoweringUnsupported why).

(** The smallest instance: its dataflow graph allows no reordering and
    no tiling, there is no input to copy, no scope to move, no cost model
    and no backend.  Navigation, annotation and merge are those of the
    specification; the graph text is the one above. *)
Definition external : External := {|
  x_double := Z;
  x_run := unit;
  x_try_swap := fun _ _ _ => illegal "swap: data dependency";
  x_split := fun _ _ _ => illegal "split: not available";
  x_input_at := fun _ _ _ => illegal "no such input";
  x_copy_input := fun _ _ _ => illegal "input not found";
  x_increase_reuse := fun _ _ => illegal "no eligible scope";
  x_decrease_reuse := fun _ _ => illegal "no eligible scope";
  x_FLOPS := fun _ _ => unsupported "no backend";
  x_FLOPs := fun _ => unsupported "no cost model";
  x_eval_runtime := fun _ _ => unsupported "no backend";
  x_serialize := write_graph;
  x_deserialize := read_graph;
  x_dump := render;
  x_assert_head := fun cond => "assertion: " ++ cond ++ " failed "
|}.

Definition engine : loop_tool.Engine := SpecEngine.engine external.

(** The same collaborators, except that looking up an input trips an
    internal assertion that has nothing to do with legality. *)
Definition faulty_external : External := {|
  x_double := Z;
  x_run := unit;
  x_try_swap := fun _ _ _ => illegal "swap: data dependency";
  x_split := fun _ _ _ => illegal "split: not available";
  x_input_at := fun _ _ _ =>
    Throw (runtime_error Defect "assertion: idx < nodes.size() failed ");
  x_copy_input := fun _ _ _ => illegal "input not found";
  x_increase_reuse := fun _ _ => illegal "no eligible scope";
  x_decrease_reuse := fun _ _ => illegal "no eligible scope";
  x_FLOPS := fun _ _ => unsupported "no backend";
  x_FLOPs := fun _ => unsupported "no cost model";
  x_eval_runtime := fun _ _ => unsupported "no backend";
  x_serialize := write_graph;
  x_deserialize := read_graph;
  x_dump := render;
  x_assert_head := fun cond => "assertion: " ++ cond ++ " failed "
|}.

Definition faulty_engine : loop_tool.Engine := SpecEngine.engine faulty_external.

(** The same collaborators, except that the inputs sit in a container
    whose checked read throws [std::out_of_range]. *)
Definition checked_external : External := {|
  x_double := Z;
  x_run := unit;
  x_try_swap := fun _ _ _ => illegal "swap: data dependency";
  x_split := fun _ _ _ => illegal "split: not available";
  x_input_at := fun _ _ _ => Throw (out_of_range "vector::_M_range_check");
  x_copy_input := fun _ _ _ => illegal "input not found";
  x_increase_reuse := fun _ _ => illegal "no eligible scope";
  x_decrease_reuse := fun _ _ => illegal "no eligible scope";
  x_FLOPS := fun _ _ => unsupported "no backend";
  x_FLOPs := fun _ => unsupported "no cost model";
  x_eval_runtime := fun _ _ => unsupported "no backend";
  x_serialize := write_graph;
  x_deserialize := read_graph;
  x_dump := render;
  x_assert_head := fun cond => "assertion: " ++ cond ++ " failed "
|}.

Definition checked_engine : loop_tool.Engine :=
  SpecEngine.engine checked_external.

Definition plain (v : nat) (e : Z) : loop := mkloop v e 1 EmptyString.

(** One Leaf wrapped in one Loop of extent 64. *)
Definition tree64 : tree := [Loop (plain 0 64) [Leaf 0 [0%nat]]].

(** Two nested loops around two leaves, followed by a top-level leaf. *)
Definition tree_mm : tree :=
  [Loop (plain 0 8) [Loop (plain 1 4) [Leaf 0 [0%nat; 1%nat]; Leaf 1 [1%nat]]];
   Leaf 2 []].

(** A loop already annotated for vectorization. *)
Definition tree_vec : tree :=
  [Loop (mkloop 0 16 1 "vectorize") [Leaf 0 [0%nat]]].

End Demo.

(* ================================================================== *)
(** * Properties *)
(* ================================================================== *)

(** ** Strings: [to_string], [stoi], [find], [substr] *)

Section Strings.

Lemma digit_char_in (d : N) : (d < 10)%N -> In (digit_char d) digit_chars.
Proof.
  intros H.
  assert (Hd : d = 0%N \/ d = 1%N \/ d = 2%N \/ d = 3%N \/ d = 4%N \/
               d = 5%N \/ d = 6%N \/ d = 7%N \/ d = 8%N \/ d = 9%N) by lia.
  repeat (destruct Hd as [-> | Hd]; [cbv; tauto |]).
  subst d; cbv; tauto.
Qed.

Lemma digit_val_char (d : N) : (d < 10)%N -> digit_val (digit_char d) = Z.of_N d.
Proof.
  intros H. unfold digit_val, digit_char.
  rewrite N_ascii_embedding by lia. lia.
Qed.

Lemma digit_chars_are_digits c : In c digit_chars -> is_digit c = true.
Proof.
  intros H. repeat (destruct H as [<- | H]; [reflexivity |]). destruct H.
Qed.

Lemma digit_chars_not_space c : In c digit_chars -> is_space c = false.
Proof.
  intros H. repeat (destruct H as [<- | H]; [reflexivity |]). destruct H.
Qed.

Lemma digit_chars_not_nl c : In c digit_chars -> Ascii.eqb c nl_char = false.
Proof.
  intros H. repeat (destruct H as [<- | H]; [reflexivity |]). destruct H.
Qed.

Lemma digit_chars_not_sign c r :
  In c digit_chars -> read_sign (String c r) = (false, String c r).
Proof.
  intros H. repeat (destruct H as [<- | H]; [reflexivity |]). destruct H.
Qed.

Lemma digits_rev_in fuel n : Forall (fun c => In c digit_chars) (digits_rev fuel n).
Proof.
  revert n. induction fuel as [| f IH]; intros n; simpl.
  - constructor.
  - constructor.
    + apply digit_char_in. apply N.mod_lt. discriminate.
    + destruct (n / 10 =? 0)%N; [constructor | apply IH].
Qed.

Lemma digits_rev_length fuel n : (List.length (digits_rev fuel n) <= fuel)%nat.
Proof.
  revert n. induction fuel as [| f IH]; intros n; simpl.
  - lia.
  - destruct (n / 10 =? 0)%N; simpl; [lia |]. specialize (IH (n / 10)%N). lia.
Qed.

Lemma digits_rev_nonempty fuel n : digits_rev (S fuel) n <> [].
Proof. simpl. discriminate. Qed.

Lemma eat_snoc l c a : eat (l ++ [c]) a = 10 * eat l a + digit_val c.
Proof. unfold eat. rewrite fold_left_app. reflexivity. Qed.

Lemma digits_rev_value fuel n :
  (1 <= fuel)%nat -> Z.of_N n < 2 ^ Z.of_nat fuel ->
  eat (rev (digits_rev fuel n)) 0 = Z.of_N n.
Proof.
  revert n. induction fuel as [| f IH]; intros n Hf Hn; [lia |].
  simpl digits_rev.
  assert (Hdm : Z.of_N n = 10 * Z.of_N (n / 10) + Z.of_N (n mod 10)).
  { rewrite N2Z.inj_div, N2Z.inj_mod. apply Z.div_mod. lia. }
  assert (Hmod : (n mod 10 < 10)%N) by (apply N.mod_lt; discriminate).
  assert (Hr : 0 <= Z.of_N (n mod 10) < 10) by (split; [apply N2Z.is_nonneg | lia]).
  destruct (n / 10 =? 0)%N eqn:Hq.
  - apply N.eqb_eq in Hq. simpl. unfold eat. simpl.
    rewrite digit_val_char by assumption. rewrite Hq in Hdm.
    change (Z.of_N 0) with 0 in Hdm. rewrite Hdm. ring.
  - apply N.eqb_neq in Hq. simpl rev. rewrite eat_snoc.
    rewrite digit_val_char by assumption.
    assert (Hpos : 1 <= Z.of_N (n / 10)).
    { destruct (n / 10)%N; [congruence | lia]. }
    destruct f as [| f'].
    + change (2 ^ Z.of_nat 1) with 2 in Hn.
      generalize dependent (Z.of_N (n / 10)).
      generalize dependent (Z.of_N (n mod 10)).
      intros. lia.
    + rewrite IH; [symmetry; exact Hdm | lia |].
      rewrite Nat2Z.inj_succ, Z.pow_succ_r in Hn by lia.
      generalize dependent (Z.of_N (n / 10)).
      generalize dependent (Z.of_N (n mod 10)).
      intros. lia.
Qed.

Lemma log2_fuel n : Z.of_N n < 2 ^ Z.of_nat (S (N.to_nat (N.log2 n))).
Proof.
  destruct n as [| p]; [reflexivity |].
  pose proof (N.log2_spec (N.pos p) ltac:(lia)) as [_ H].
  apply N2Z.inj_lt in H. rewrite N2Z.inj_pow, N2Z.inj_succ in H.
  rewrite Nat2Z.inj_succ, N_nat_Z. exact H.
Qed.

Lemma read_digits_run l rest acc :
  Forall (fun c => In c digit_chars) l -> l <> [] ->
  read_digits (string_of_list_ascii l ++ rest) acc =
  read_digits rest (Some (eat l match acc with Some a => a | None => 0 end)).
Proof.
  intros Hl. revert acc. induction Hl as [| c l Hc Hl IH]; intros acc Hne.
  - congruence.
  - simpl. rewrite (digit_chars_are_digits c Hc).
    destruct l as [| c' l'].
    + reflexivity.
    + rewrite IH by discriminate. reflexivity.
Qed.

Lemma append_empty_r s : s ++ EmptyString = s.
Proof. induction s as [| c s IH]; simpl; [reflexivity | now rewrite IH]. Qed.

Lemma string_of_list_app l1 l2 :
  string_of_list_ascii (l1 ++ l2) =
  string_of_list_ascii l1 ++ string_of_list_ascii l2.
Proof. induction l1 as [| c l IH]; simpl; [reflexivity | now rewrite IH]. Qed.

Lemma string_of_list_length l :
  String.length (string_of_list_ascii l) = List.length l.
Proof. induction l as [| c l IH]; simpl; [reflexivity | now rewrite IH]. Qed.

Lemma numeral_digits n : Forall (fun c => In c digit_chars) (numeral n).
Proof. apply Forall_rev, digits_rev_in. Qed.

Lemma numeral_nonempty n : numeral n <> [].
Proof.
  unfold numeral. simpl digits_rev. simpl rev.
  destruct (rev _); discriminate.
Qed.

Lemma numeral_value n : eat (numeral n) 0 = Z.of_N n.
Proof. apply digits_rev_value; [lia | apply log2_fuel]. Qed.

Lemma numeral_length n :
  (n <= 2 ^ 31)%N -> (List.length (numeral n) <= 32)%nat.
Proof.
  intros H. unfold numeral. rewrite length_rev.
  pose proof (digits_rev_length (S (N.to_nat (N.log2 n))) n) as Hlen.
  pose proof (N.log2_le_mono _ _ H) as Hlog.
  rewrite N.log2_pow2 in Hlog by lia. lia.
Qed.

Lemma read_numeral n : read_digits (string_of_N n) None = Some (Z.of_N n).
Proof.
  unfold string_of_N. fold (numeral n).
  rewrite <- (append_empty_r (string_of_list_ascii (numeral n))).
  rewrite read_digits_run by (auto using numeral_digits, numeral_nonempty).
  simpl. now rewrite numeral_value.
Qed.

Lemma numeral_head n :
  exists c r, string_of_N n = String c r /\ In c digit_chars.
Proof.
  unfold string_of_N. fold (numeral n).
  pose proof (numeral_digits n) as Hd. pose proof (numeral_nonempty n) as Hne.
  destruct (numeral n) as [| c l]; [congruence |].
  exists c, (string_of_list_ascii l). split; [reflexivity |].
  now inversion Hd.
Qed.

(** [std::stoi] reads back what [std::to_string] wrote for an [int]. *)
Lemma stoi_to_string z : in_int_range z = true -> stoi (to_string z) = Ok z.
Proof.
  intros Hr. unfold to_string, stoi.
  destruct (z <? 0) eqn:Hneg.
  - apply Z.ltb_lt in Hneg.
    change (skip_space (String "-" (string_of_N (Z.to_N (- z)))))
      with (String "-"%char (string_of_N (Z.to_N (- z)))).
    change (read_sign (String "-" (string_of_N (Z.to_N (- z)))))
      with (true, string_of_N (Z.to_N (- z))).
    cbv iota beta. rewrite read_numeral. rewrite Z2N.id by lia.
    replace (- - z) with z by lia. now rewrite Hr.
  - apply Z.ltb_ge in Hneg.
    destruct (numeral_head (Z.to_N z)) as (c & r & Hs & Hc).
    assert (Hsk : skip_space (string_of_N (Z.to_N z)) = string_of_N (Z.to_N z)).
    { rewrite Hs. simpl. now rewrite (digit_chars_not_space c Hc). }
    rewrite Hsk. rewrite Hs at 1. rewrite (digit_chars_not_sign c r Hc).
    rewrite <- Hs. rewrite read_numeral. rewrite Z2N.id by lia. now rewrite Hr.
Qed.

Lemma to_string_chars z : to_string z = string_of_list_ascii (to_chars z).
Proof. unfold to_string, to_chars. destruct (z <? 0); reflexivity. Qed.

Lemma to_chars_no_nl z :
  Forall (fun c => Ascii.eqb c nl_char = false) (to_chars z).
Proof.
  assert (H : forall n, Forall (fun c => Ascii.eqb c nl_char = false) (numeral n)).
  { intros n. eapply Forall_impl; [| apply numeral_digits].
    intros c. apply digit_chars_not_nl. }
  unfold to_chars. destruct (z <? 0); [constructor; [reflexivity |] |]; apply H.
Qed.

Lemma to_chars_length z :
  in_int_range z = true -> (List.length (to_chars z) <= 33)%nat.
Proof.
  unfold in_int_range, INT_MIN, INT_MAX. intros H.
  apply andb_true_iff in H as [H1 H2].
  apply Z.leb_le in H1. apply Z.leb_le in H2.
  unfold to_chars. destruct (z <? 0) eqn:Hneg.
  - simpl. pose proof (numeral_length (Z.to_N (- z))) as Hl.
    assert ((Z.to_N (- z) <= 2 ^ 31)%N) by (apply Z.ltb_lt in Hneg; lia). lia.
  - pose proof (numeral_length (Z.to_N z)) as Hl.
    assert ((Z.to_N z <= 2 ^ 31)%N) by (apply Z.ltb_ge in Hneg; lia). lia.
Qed.

Lemma find_from_run c l rest i :
  Forall (fun d => Ascii.eqb d c = false) l ->
  find_from c (string_of_list_ascii l ++ String c rest) i =
  i + Z.of_nat (List.length l).
Proof.
  intros Hl. revert i. induction Hl as [| d l Hd Hl IH]; intros i.
  - simpl. rewrite Ascii.eqb_refl. lia.
  - simpl string_of_list_ascii. simpl append. simpl find_from.
    rewrite Hd, IH. rewrite length_cons. lia.
Qed.

Lemma substring_all s : String.substring 0 (String.length s) s = s.
Proof. induction s as [| c s IH]; simpl; [reflexivity | now rewrite IH]. Qed.

Lemma substring_prefix s1 s2 :
  String.substring 0 (String.length s1) (s1 ++ s2) = s1.
Proof.
  induction s1 as [| c s IH]; simpl.
  - destruct s2; reflexivity.
  - now rewrite IH.
Qed.

Lemma substring_suffix s1 s2 :
  String.substring (String.length s1) (String.length s2) (s1 ++ s2) = s2.
Proof.
  induction s1 as [| c s IH]; simpl; [apply substring_all | exact IH].
Qed.

Lemma append_length s1 s2 :
  String.length (s1 ++ s2) = (String.length s1 + String.length s2)%nat.
Proof. induction s1 as [| c s IH]; simpl; [reflexivity | now rewrite IH]. Qed.

Lemma append_assoc s1 s2 s3 : (s1 ++ s2) ++ s3 = s1 ++ (s2 ++ s3).
Proof. induction s1 as [| c s IH]; simpl; [reflexivity | now rewrite IH]. Qed.

End Strings.

(** ** The agent over an arbitrary engine *)

Section AgentFacts.
Import LoopTreeAgent.
Context {E : loop_tool.Engine}.

Lemma atomic_set_lt t : atomic (set_lt t).
Proof. intros a e a' H. discriminate H. Qed.

Lemma atomic_set_cursor c : atomic (set_cursor c).
Proof. intros a e a' H. discriminate H. Qed.

Lemma atomic_call {A} (f : agent E -> res A) : atomic (call f).
Proof. intros a e a' H. unfold call in H. now inversion H. Qed.

Lemma atomic_after_call {A B} (f : agent E -> res A) (k : A -> M E B) :
  (forall x, atomic (k x)) -> atomic (bind (call f) k).
Proof.
  intros Hk a e a' H. unfold bind, call in H.
  destruct (f a) as [x | e0]; [exact (Hk x a e a' H) | now inversion H].
Qed.

Create HintDb atomic.
#[local] Hint Resolve atomic_set_lt atomic_set_cursor atomic_call : atomic.
#[local] Hint Extern 2 (atomic (bind (call _) _)) =>
  apply atomic_after_call; intros : atomic.
#[local] Hint Extern 3 (atomic (if ?b then _ else _)) => destruct b : atomic.

Lemma atomic_split k : atomic (LoopTreeAgent.split k).
Proof. unfold LoopTreeAgent.split. auto with atomic. Qed.

Lemma atomic_annotate text : atomic (LoopTreeAgent.annotate text).
Proof. unfold LoopTreeAgent.annotate. auto 6 with atomic. Qed.

Lemma atomic_copy_input_n i : atomic (copy_input_n i).
Proof. unfold copy_input_n. auto 6 with atomic. Qed.

(** The table [actions_fn] as iteration meets it: ordered by key. *)
Lemma actions_fn_sorted :
  actions_fn =
  [ ("copy_input_0", copy_input_0); ("copy_input_1", copy_input_1);
    ("decrease_reuse", LoopTreeAgent.decrease_reuse); ("down", down);
    ("increase_reuse", LoopTreeAgent.increase_reuse);
    ("merge", LoopTreeAgent.merge);
    ("split_128", split_128); ("split_16", split_16); ("split_2", split_2);
    ("split_256", split_256); ("split_32", split_32); ("split_4", split_4);
    ("split_64", split_64); ("split_8", split_8);
    ("swap_down", swap_down); ("swap_up", swap_up); ("unroll", unroll);
    ("up", up); ("vectorize", vectorize) ].
Proof. reflexivity. Qed.

Lemma map_find_in {T} (m : list (string * T)) k v :
  map_find k m = Some v -> In (k, v) m.
Proof.
  induction m as [| [k' v'] m IH]; simpl; [discriminate |].
  destruct (String.eqb k k') eqn:Hk.
  - apply String.eqb_eq in Hk. intros H. inversion H. subst. now left.
  - intros H. right. now apply IH.
Qed.

Lemma map_find_none {T} (m : list (string * T)) k :
  ~ In k (map_keys m) -> map_find k m = None.
Proof.
  induction m as [| [k' v'] m IH]; simpl; [reflexivity |].
  intros H. destruct (String.eqb k k') eqn:Hk.
  - apply String.eqb_eq in Hk. subst. tauto.
  - apply IH. tauto.
Qed.

Lemma actions_atomic name f : In (name, f) actions_fn -> atomic f.
Proof.
  rewrite actions_fn_sorted. intros H.
  repeat (destruct H as [H | H];
          [inversion H; subst f;
           first [ apply atomic_split | apply atomic_annotate
                 | apply atomic_copy_input_n
                 | unfold up, down, swap_up, swap_down, LoopTreeAgent.merge,
                     LoopTreeAgent.increase_reuse, LoopTreeAgent.decrease_reuse;
                   auto with atomic ] |]).
  destruct H.
Qed.

Lemma apply_action_found name f a :
  map_find name actions_fn = Some f -> apply_action name a = f a.
Proof.
  intros H. unfold apply_action, bind, call, loop_tool.ASSERT, map_count, map_at.
  rewrite H. reflexivity.
Qed.

Lemma apply_action_missing name a :
  map_find name actions_fn = None ->
  apply_action name a =
  (Throw (runtime_error UnknownAction
            (loop_tool.assert_head "actions_fn.count(action) > 0" ++
             help_actions)), a).
Proof.
  intros H. unfold apply_action, bind, call, loop_tool.ASSERT, map_count.
  rewrite H. reflexivity.
Qed.

Lemma atomic_apply_action name : atomic (apply_action name).
Proof.
  intros a e a' H. destruct (map_find name actions_fn) as [f |] eqn:Hf.
  - rewrite (apply_action_found _ _ _ Hf) in H.
    exact (actions_atomic name f (map_find_in _ _ _ Hf) a e a' H).
  - rewrite (apply_action_missing _ _ Hf) in H. now inversion H.
Qed.

End AgentFacts.

Section AgentTheorems.
Import LoopTreeAgent.
Context {E : loop_tool.Engine}.

Lemma agent_eta (a : agent E) : mk (lt a) (cursor a) = a.
Proof. destruct a; reflexivity. Qed.

Lemma trial_eq a name available :
  trial (lt a) (cursor a) name available a =
  match fst (apply_action name a) with
  | Ok _ => (Ok (available ++ [name])%list, a)
  | Throw e => if is_runtime_error e then (Ok available, a) else (Throw e, a)
  end.
Proof.
  unfold trial, bind, try_catch_runtime_error, ret, set_lt, set_cursor.
  destruct (apply_action name a) as [r a'] eqn:H. destruct r as [u | e]; simpl.
  - now rewrite agent_eta.
  - destruct (is_runtime_error e); simpl.
    + now rewrite agent_eta.
    + now rewrite (atomic_apply_action name a e a' H).
Qed.

Lemma trials_eq names : forall a available,
  trials (lt a) (cursor a) names available a = (scan a names available, a).
Proof.
  induction names as [| n rest IH]; intros a available; simpl.
  - reflexivity.
  - unfold bind. rewrite trial_eq.
    destruct (fst (apply_action n a)) as [u | e].
    + apply IH.
    + destruct (is_runtime_error e); [apply IH | reflexivity].
Qed.

Lemma scan_ok a names : forall available l,
  scan a names available = Ok l ->
  l = (available ++ filter (trial_ok a) names)%list.
Proof.
  induction names as [| n rest IH]; intros available l; simpl.
  - intros H. inversion H. now rewrite app_nil_r.
  - unfold trial_ok at 1. destruct (fst (apply_action n a)) as [u | e]; simpl.
    + intros H. rewrite (IH _ _ H). now rewrite <- app_assoc.
    + destruct (is_runtime_error e); [apply IH | discriminate].
Qed.

Lemma scan_total a names : forall available,
  nothing_escapes a names ->
  scan a names available = Ok (available ++ filter (trial_ok a) names)%list.
Proof.
  induction names as [| n rest IH]; intros available Hne; simpl.
  - now rewrite app_nil_r.
  - assert (Hrest : nothing_escapes a rest).
    { intros m e Hm. apply Hne. now right. }
    unfold trial_ok at 1.
    destruct (fst (apply_action n a)) as [u | e] eqn:Hn; simpl.
    + rewrite IH by assumption. now rewrite <- app_assoc.
    + rewrite (Hne n e (or_introl eq_refl) Hn). now apply IH.
Qed.

Lemma scan_escape a pre n post e : forall available,
  nothing_escapes a pre ->
  fst (apply_action n a) = Throw e -> is_runtime_error e = false ->
  scan a (pre ++ n :: post) available = Throw e.
Proof.
  induction pre as [| m pre IH]; intros available Hpre Hn He; simpl.
  - now rewrite Hn, He.
  - assert (Hrest : nothing_escapes a pre).
    { intros k e' Hk. apply Hpre. now right. }
    destruct (fst (apply_action m a)) as [u | e'] eqn:Hm.
    + now apply IH.
    + rewrite (Hpre m e' (or_introl eq_refl) Hm). now apply IH.
Qed.

Lemma get_available_actions_eq a :
  get_available_actions a = (scan a (map_keys actions_fn) [], a).
Proof. unfold get_available_actions. apply trials_eq. Qed.

(** C1.  [get_available_actions] leaves the agent's tree and cursor as
    they were: the state after the call is the state before it, so
    [dump()] prints the same text and a second call does what the first
    did.  When the call returns, it returns the names, in table order, of
    the actions whose trial application from that state succeeds; and it
    does return whenever every failing trial fails with a
    [std::runtime_error]. *)
Theorem get_available_actions_restores_state (a : agent E) :
  snd (get_available_actions a) = a /\
  LoopTreeAgent.dump (snd (get_available_actions a)) = LoopTreeAgent.dump a /\
  get_available_actions (snd (get_available_actions a)) =
    get_available_actions a /\
  (forall l, fst (get_available_actions a) = Ok l ->
     l = filter (trial_ok a) (map_keys actions_fn)) /\
  (nothing_escapes a (map_keys actions_fn) ->
   fst (get_available_actions a) =
     Ok (filter (trial_ok a) (map_keys actions_fn))).
Proof.
  rewrite !get_available_actions_eq. cbn [fst snd].
  split; [reflexivity |]. split; [reflexivity |]. split; [reflexivity |].
  split.
  - intros l H. exact (scan_ok a _ [] l H).
  - intros H. exact (scan_total a _ [] H).
Qed.

(** C2, as amended.  One turn of the trial loop swallows every
    [std::runtime_error], whatever its kind: the action is left out, the
    snapshot is restored and the loop goes on.  An exception of any other
    class is not caught: it leaves [get_available_actions] from the first
    action, in table order, that throws one, the agent being in the state
    it had before the call. *)
Theorem get_available_actions_catch_policy
        (a : agent E) (pre post : list string) (n : string) (e : exn)
        (available : list string) :
  map_keys actions_fn = (pre ++ n :: post)%list ->
  nothing_escapes a pre ->
  fst (apply_action n a) = Throw e ->
  trial (lt a) (cursor a) n available a =
    (if is_runtime_error e then Ok available else Throw e, a) /\
  (is_runtime_error e = true ->
   forall l, fst (get_available_actions a) = Ok l -> ~ In n l) /\
  (is_runtime_error e = false -> get_available_actions a = (Throw e, a)).
Proof.
  intros Hkeys Hpre Hn. split; [| split].
  - rewrite trial_eq, Hn. now destruct (is_runtime_error e).
  - intros He l Hl. rewrite get_available_actions_eq in Hl. cbn [fst] in Hl.
    apply scan_ok in Hl. subst l. cbn [app]. rewrite filter_In.
    unfold trial_ok. rewrite Hn. intros [_ H]. discriminate H.
  - intros He. rewrite get_available_actions_eq, Hkeys.
    now rewrite (scan_escape a pre n post e [] Hpre Hn He).
Qed.

End AgentTheorems.

Section Dispatch.
Import LoopTreeAgent.
Context {E : loop_tool.Engine}.

Lemma keys_registered name :
  In name (map_keys (@actions_fn E)) -> In name registered_names.
Proof.
  rewrite actions_fn_sorted. unfold map_keys, registered_names.
  cbn [map fst]. intros H.
  repeat (destruct H as [<- | H]; [cbn [In]; tauto |]). destruct H.
Qed.

Lemma fold_listing names : forall head,
  fold_left (fun ss name => ss ++ name ++ endl) names head =
  head ++ listing names.
Proof.
  induction names as [| m names IH]; intros head; simpl.
  - now rewrite append_empty_r.
  - rewrite IH. now rewrite !append_assoc.
Qed.

Lemma listing_includes names n :
  In n names ->
  exists before after, listing names = before ++ n ++ endl ++ after.
Proof.
  induction names as [| m names IH]; intros Hin; [destruct Hin |].
  destruct Hin as [-> | Hin].
  - exists EmptyString, (listing names). reflexivity.
  - destruct (IH Hin) as (before & after & H).
    exists (m ++ endl ++ before), after. simpl. rewrite H.
    now rewrite !append_assoc.
Qed.

Lemma help_actions_eq :
  help_actions = "Available actions are:" ++ endl ++
                 listing (map_keys (@actions_fn E)).
Proof. unfold help_actions. rewrite fold_listing. now rewrite append_assoc. Qed.

(** C4.  [apply_action] dispatches exactly on the 19 registered names:
    for each of them it runs the member function the table binds to it,
    and for every other string (names are compared character by
    character) it throws the unknown-action error, leaving the agent
    untouched; the text of that error ends with the help listing, in which
    every registered name has its line. *)
Theorem apply_action_dispatch (name : string) (a : agent E) :
  List.length registered_names = 19%nat /\
  NoDup registered_names /\
  map fst (@actions_init E) = registered_names /\
  (In name registered_names ->
   exists f, In (name, f) actions_init /\ apply_action name a = f a) /\
  (~ In name registered_names ->
   apply_action name a =
   (Throw (runtime_error UnknownAction
             (loop_tool.assert_head "actions_fn.count(action) > 0" ++
             help_actions)),
    a)) /\
  (forall n, In n registered_names ->
   exists before after, help_actions = before ++ n ++ endl ++ after).
Proof.
  split; [reflexivity |]. split.
  { unfold registered_names.
    repeat (constructor; [cbn [In]; intros H;
      repeat (destruct H as [H | H]; [discriminate H |]); exact H |]).
    constructor. }
  split; [reflexivity |]. split; [| split].
  - unfold registered_names. intros H.
    repeat (destruct H as [<- | H];
      [eexists; split;
       [| apply apply_action_found; reflexivity];
       unfold actions_init;
       repeat (first [left; reflexivity | right]) |]).
    destruct H.
  - intros H. apply apply_action_missing. apply map_find_none.
    intros Hk. apply H. now apply keys_registered.
  - intros n Hn. rewrite help_actions_eq.
    assert (Hk : In n (map_keys (@actions_fn E))).
    { rewrite actions_fn_sorted. unfold map_keys. cbn [map fst].
      unfold registered_names in Hn.
      repeat (destruct Hn as [<- | Hn]; [cbn [In]; tauto |]). destruct Hn. }
    destruct (listing_includes _ _ Hk) as (before & after & H).
    exists ("Available actions are:" ++ endl ++ before), after.
    rewrite H. now rewrite !append_assoc.
Qed.

End Dispatch.

Section Frame.
Import LoopTreeAgent.
Context {E : loop_tool.Engine}.

Lemma keeps_cursor_set_lt t : keeps_cursor (set_lt t).
Proof. intros a. reflexivity. Qed.

Lemma keeps_lt_set_cursor c : keeps_lt (set_cursor c).
Proof. intros a. reflexivity. Qed.

Lemma keeps_cursor_after_call {A B} (f : agent E -> res A) (k : A -> M E B) :
  (forall x, keeps_cursor (k x)) -> keeps_cursor (bind (call f) k).
Proof.
  intros Hk a. unfold bind, call.
  destruct (f a) as [x | e]; [apply Hk | reflexivity].
Qed.

Lemma keeps_lt_after_call {A B} (f : agent E -> res A) (k : A -> M E B) :
  (forall x, keeps_lt (k x)) -> keeps_lt (bind (call f) k).
Proof.
  intros Hk a. unfold bind, call.
  destruct (f a) as [x | e]; [apply Hk | reflexivity].
Qed.

Create HintDb frame.
#[local] Hint Resolve keeps_cursor_set_lt keeps_lt_set_cursor : frame.
#[local] Hint Extern 2 (keeps_cursor (bind (call _) _)) =>
  apply keeps_cursor_after_call; intros : frame.
#[local] Hint Extern 2 (keeps_lt (bind (call _) _)) =>
  apply keeps_lt_after_call; intros : frame.
#[local] Hint Extern 3 (keeps_cursor (if ?b then _ else _)) =>
  destruct b : frame.

Lemma up_eq (a : agent E) :
  up a = match loop_tool.previous_ref (lt a) (cursor a) with
         | Ok c => (Ok tt, mk (lt a) c)
         | Throw e => (Throw e, a)
         end.
Proof.
  unfold up, bind, call, set_cursor.
  now destruct (loop_tool.previous_ref (lt a) (cursor a)).
Qed.

Lemma down_eq (a : agent E) :
  down a = match loop_tool.next_ref (lt a) (cursor a) with
           | Ok c => (Ok tt, mk (lt a) c)
           | Throw e => (Throw e, a)
           end.
Proof.
  unfold down, bind, call, set_cursor.
  now destruct (loop_tool.next_ref (lt a) (cursor a)).
Qed.

Lemma tree_actions_keep_cursor name f :
  In (name, f) (@actions_fn E) -> name <> "up" -> name <> "down" ->
  keeps_cursor f.
Proof.
  rewrite actions_fn_sorted. intros H Hup Hdown.
  repeat (destruct H as [H | H];
          [inversion H; subst;
           first [ congruence
                 | unfold copy_input_0, copy_input_1, copy_input_n,
                     LoopTreeAgent.decrease_reuse,
                     LoopTreeAgent.increase_reuse, LoopTreeAgent.merge,
                     split_2, split_4, split_8, split_16, split_32, split_64,
                     split_128, split_256, LoopTreeAgent.split, swap_down, swap_up,
                     unroll, vectorize, LoopTreeAgent.annotate;
                   auto 6 with frame ] |]).
  destruct H.
Qed.

(** C10.  The navigation actions [up] and [down] write the cursor only:
    the tree after the call is the tree before it, and on success the
    cursor is the reference navigation returned.  Every other action
    writes the tree only: the cursor keeps its value, and when the engine
    call of the action returns, the agent's tree is the tree it returned
    (when it throws, the agent is as it was).  The seventeen entries of
    [tree_calls] are all the registered names other than [up] and [down].
    A name outside the table changes neither member. *)
Theorem actions_frame (name : string) (a : agent E) :
  (name = "up" \/ name = "down" ->
   lt (snd (apply_action name a)) = lt a) /\
  (name <> "up" /\ name <> "down" ->
   cursor (snd (apply_action name a)) = cursor a) /\
  apply_action "up" a =
    match loop_tool.previous_ref (lt a) (cursor a) with
    | Ok c => (Ok tt, mk (lt a) c)
    | Throw e => (Throw e, a)
    end /\
  apply_action "down" a =
    match loop_tool.next_ref (lt a) (cursor a) with
    | Ok c => (Ok tt, mk (lt a) c)
    | Throw e => (Throw e, a)
    end /\
  (forall asked, In (name, asked) tree_calls ->
   apply_action name a =
     match asked a with
     | Ok t => (Ok tt, mk t (cursor a))
     | Throw e => (Throw e, a)
     end) /\
  (In name registered_names ->
   name = "up" \/ name = "down" \/ exists asked, In (name, asked) tree_calls).
Proof.
  assert (Hup : apply_action "up" a = up a)
    by (apply apply_action_found; reflexivity).
  assert (Hdown : apply_action "down" a = down a)
    by (apply apply_action_found; reflexivity).
  split; [| split; [| split; [| split; [| split]]]].
  - intros [-> | ->].
    + rewrite Hup, up_eq. now destruct (loop_tool.previous_ref (lt a) (cursor a)).
    + rewrite Hdown, down_eq. now destruct (loop_tool.next_ref (lt a) (cursor a)).
  - intros [Hnu Hnd].
    destruct (map_find name actions_fn) as [f |] eqn:Hf.
    + rewrite (apply_action_found _ _ _ Hf).
      exact (tree_actions_keep_cursor name f (map_find_in _ _ _ Hf) Hnu Hnd a).
    + now rewrite (apply_action_missing _ _ Hf).
  - now rewrite Hup, up_eq.
  - now rewrite Hdown, down_eq.
  - intros asked H. unfold tree_calls in H.
    repeat (destruct H as [H | H];
            [inversion H; subst; clear H;
             first
               [ rewrite (apply_action_found _ swap_down) by reflexivity
               | rewrite (apply_action_found _ swap_up) by reflexivity
               | rewrite (apply_action_found _ (LoopTreeAgent.split _))
                   by reflexivity
               | rewrite (apply_action_found _ LoopTreeAgent.merge)
                   by reflexivity
               | rewrite (apply_action_found _ (LoopTreeAgent.annotate _))
                   by reflexivity
               | rewrite (apply_action_found _ (copy_input_n _))
                   by reflexivity
               | rewrite (apply_action_found _ LoopTreeAgent.increase_reuse)
                   by reflexivity
               | rewrite (apply_action_found _ LoopTreeAgent.decrease_reuse)
                   by reflexivity ];
             unfold swap_down, swap_up, LoopTreeAgent.split,
               LoopTreeAgent.merge, LoopTreeAgent.annotate, copy_input_n,
               LoopTreeAgent.increase_reuse, LoopTreeAgent.decrease_reuse,
               toggled, bind, call, set_lt, res_bind;
             repeat match goal with
                    | |- context [match ?x with _ => _ end] => destruct x
                    end;
             reflexivity |]).
    destruct H.
  - unfold registered_names, tree_calls. intros H.
    destruct H as [<- | [<- | H]]; [now left | now right; left |].
    right; right.
    repeat (destruct H as [<- | H]; [eexists; cbn [In]; tauto |]).
    destruct H.
Qed.

End Frame.

Section Serialization.
Import LoopTreeAgent.
Context {E : loop_tool.Engine}.

Lemma strlen_nonneg s : 0 <= strlen s.
Proof. unfold strlen. lia. Qed.

Lemma to_int_small z : 0 <= z < 2 ^ 31 -> to_int z = z.
Proof.
  intros H. unfold to_int. rewrite Z.mod_small by lia. lia.
Qed.

Lemma to_size_t_small z : 0 <= z < 2 ^ 31 -> to_size_t z = z.
Proof. intros H. unfold to_size_t. apply Z.mod_small. lia. Qed.

(** What [deserialize] makes of a cursor numeral, a newline and a graph
    text. *)
Lemma deserialize_lines (c : Z) (g : string) :
  in_int_range c = true ->
  LoopTreeAgent.deserialize (to_string c ++ nl ++ g) =
  res_bind (loop_tool.deserialize g)
           (fun ir => Ok (mk (loop_tool.LoopTree_of ir) c)).
Proof.
  intros Hc. unfold LoopTreeAgent.deserialize.
  set (s1 := to_string c).
  assert (Hlen : (String.length s1 <= 33)%nat).
  { unfold s1. rewrite to_string_chars, string_of_list_length.
    now apply to_chars_length. }
  assert (Hfind : find nl_char (s1 ++ nl ++ g) = Z.of_nat (String.length s1)).
  { unfold s1, find. rewrite to_string_chars.
    change (nl ++ g) with (String nl_char g).
    rewrite find_from_run by apply to_chars_no_nl.
    now rewrite string_of_list_length. }
  assert (Htotal : strlen (s1 ++ nl ++ g) =
                   Z.of_nat (String.length s1) + 1 + strlen g).
  { unfold strlen. rewrite !append_length. simpl String.length. lia. }
  pose proof (strlen_nonneg g) as Hg.
  rewrite Hfind.
  rewrite (to_int_small (Z.of_nat (String.length s1))) by lia.
  rewrite (to_int_small (Z.of_nat (String.length s1) + 1)) by lia.
  rewrite !to_size_t_small by lia.
  unfold substr. rewrite Htotal.
  replace (Z.of_nat (String.length s1) + 1 + strlen g <? 0) with false
    by (symmetry; apply Z.ltb_ge; lia).
  replace (Z.of_nat (String.length s1) + 1 + strlen g <?
           Z.of_nat (String.length s1) + 1) with false
    by (symmetry; apply Z.ltb_ge; lia).
  cbn [res_bind].
  rewrite Z.min_l by lia. rewrite Nat2Z.id. change (Z.to_nat 0) with O.
  rewrite substring_prefix.
  unfold s1 at 1. rewrite stoi_to_string by assumption. cbn [res_bind].
  rewrite Z.min_r by lia.
  replace (Z.of_nat (String.length s1) + 1 + strlen g -
           (Z.of_nat (String.length s1) + 1)) with (strlen g) by lia.
  unfold strlen at 1. rewrite Nat2Z.id.
  replace (Z.to_nat (Z.of_nat (String.length s1) + 1))
    with (String.length (s1 ++ nl)).
  2: { rewrite append_length. simpl String.length. lia. }
  rewrite <- (append_assoc s1 nl g). rewrite substring_suffix.
  reflexivity.
Qed.

(** C6.  [serialize] writes the cursor's integer, a newline and the graph
    text.  Reading that back, [deserialize] finds the cursor again, hands
    exactly the graph text to the graph reader, and builds the tree from
    what the reader returns: given the serialization component's contract
    on the tree's graph, the agent read back has the original cursor and
    an equivalent tree. *)
Theorem serialize_round_trip
        (equiv : loop_tool.LoopTree -> loop_tool.LoopTree -> Prop)
        (a : agent E) :
  in_int_range (cursor a) = true ->
  graph_round_trips equiv (lt a) ->
  LoopTreeAgent.serialize a =
    to_string (cursor a) ++ nl ++
    loop_tool.serialize (loop_tool.lt_ir (lt a)) /\
  stoi (first_line (LoopTreeAgent.serialize a)) = Ok (cursor a) /\
  exists a', LoopTreeAgent.deserialize (LoopTreeAgent.serialize a) = Ok a' /\
             cursor a' = cursor a /\
             equiv (lt a') (lt a).
Proof.
  intros Hc (ir & Hir & Heq). split; [reflexivity |]. split.
  - unfold LoopTreeAgent.serialize. rewrite to_string_chars.
    assert (H : forall l rest,
               Forall (fun c => Ascii.eqb c nl_char = false) l ->
               first_line (string_of_list_ascii l ++ String nl_char rest) =
               string_of_list_ascii l).
    { intros l rest Hl. induction Hl as [| c l Hcl Hl IH]; simpl.
      - reflexivity.
      - now rewrite Hcl, IH. }
    change (nl ++ loop_tool.serialize (loop_tool.lt_ir (lt a)))
      with (String nl_char (loop_tool.serialize (loop_tool.lt_ir (lt a)))).
    rewrite H by apply to_chars_no_nl.
    rewrite <- to_string_chars. now apply stoi_to_string.
  - unfold LoopTreeAgent.serialize. rewrite deserialize_lines by assumption.
    rewrite Hir. cbn [res_bind].
    eexists. split; [reflexivity |]. split; [reflexivity | exact Heq].
Qed.

Lemma find_first_line s : forall i,
  (find_from nl_char s i = npos /\ first_line s = s /\ behind_nl s = None) \/
  (exists k : nat,
     find_from nl_char s i = i + Z.of_nat k /\
     (k < String.length s)%nat /\
     String.substring 0 k s = first_line s /\
     behind_nl s =
       Some (String.substring (S k) (String.length s - S k) s)).
Proof.
  induction s as [| c r IH]; intros i.
  - left. repeat split.
  - cbn [find_from first_line behind_nl String.length].
    destruct (Ascii.eqb c nl_char).
    + right. exists O. split; [lia |]. split; [lia |]. split; [reflexivity |].
      replace (S (String.length r) - 1)%nat with (String.length r) by lia.
      cbn [String.substring]. now rewrite substring_all.
    + destruct (IH (i + 1)) as [(Hf & Hl & Hb) | (k & Hf & Hk & Hs & Hb)].
      * left. split; [exact Hf |]. split; [now rewrite Hl | exact Hb].
      * right. exists (S k). split; [lia |]. split; [lia |].
        split; [cbn [String.substring]; now rewrite Hs |].
        rewrite Hb. reflexivity.
Qed.

(** The texts handed to [std::stoi] and to the graph reader. *)
Lemma first_line_substr ser :
  strlen ser < 2 ^ 31 ->
  substr ser 0 (to_size_t (to_int (find nl_char ser))) = Ok (first_line ser) /\
  substr ser (to_size_t (to_int (to_int (find nl_char ser) + 1))) (strlen ser)
    = Ok (after_first_line ser).
Proof.
  intros Hlen. pose proof (strlen_nonneg ser) as Hnn.
  unfold find, substr, after_first_line.
  replace (strlen ser <? 0) with false by (symmetry; apply Z.ltb_ge; lia).
  destruct (find_first_line ser 0) as [(Hf & Hl & Hb) | (k & Hf & Hk & Hs & Hb)].
  - rewrite Hf, Hb. change (to_size_t (to_int npos)) with (2 ^ 64 - 1).
    change (to_size_t (to_int (to_int npos + 1))) with 0.
    replace (strlen ser <? 0) with false by (symmetry; apply Z.ltb_ge; lia).
    rewrite Z.min_r by lia. rewrite Z.sub_0_r. rewrite Z.min_id.
    unfold strlen. rewrite Nat2Z.id. change (Z.to_nat 0) with O.
    now rewrite substring_all, Hl.
  - rewrite Hf, Hb. unfold strlen in *.
    change (0 + Z.of_nat k) with (Z.of_nat k).
    rewrite (to_int_small (Z.of_nat k)) by lia.
    rewrite (to_int_small (Z.of_nat k + 1)) by lia.
    rewrite !to_size_t_small by lia.
    replace (Z.of_nat (String.length ser) <? Z.of_nat k + 1) with false
      by (symmetry; apply Z.ltb_ge; lia).
    rewrite Z.min_l by lia. rewrite Z.min_r by lia.
    rewrite Nat2Z.id. change (Z.to_nat 0) with O. rewrite Hs.
    replace (Z.to_nat (Z.of_nat k + 1)) with (S k) by lia.
    replace (Z.to_nat (Z.of_nat (String.length ser) - (Z.of_nat k + 1)))
      with (String.length ser - S k)%nat by lia.
    split; reflexivity.
Qed.

(** [deserialize] on any input of moderate length: the first line goes to
    [std::stoi], what is behind it to the graph reader. *)
Lemma deserialize_eq ser :
  strlen ser < 2 ^ 31 ->
  LoopTreeAgent.deserialize ser =
  res_bind (stoi (first_line ser)) (fun c =>
  res_bind (loop_tool.deserialize (after_first_line ser)) (fun ir =>
  Ok (mk (loop_tool.LoopTree_of ir) c))).
Proof.
  intros Hlen. destruct (first_line_substr ser Hlen) as [H1 H2].
  unfold LoopTreeAgent.deserialize. rewrite H1. cbn [res_bind].
  destruct (stoi (first_line ser)) as [c | e]; [| reflexivity].
  cbn [res_bind]. now rewrite H2.
Qed.

Lemma stoi_no_leading_int s :
  leading_int s = false -> stoi s = Throw (invalid_argument "stoi").
Proof.
  unfold leading_int, stoi.
  destruct (read_sign (skip_space s)) as [neg body]. cbn [snd].
  destruct body as [| c r]; [reflexivity |].
  intros H. simpl. now rewrite H.
Qed.

Lemma read_digits_some r : forall z, read_digits r (Some z) <> None.
Proof.
  induction r as [| d r IH]; intros z; cbn [read_digits]; [discriminate |].
  destruct (is_digit d); [apply IH | discriminate].
Qed.

Lemma read_digits_stop rest acc :
  head_is_digit rest = false -> read_digits rest acc = acc.
Proof.
  destruct rest as [| c r]; cbn [head_is_digit read_digits];
    [reflexivity |]. now intros ->.
Qed.

Lemma read_numeral_then n rest :
  head_is_digit rest = false ->
  read_digits (string_of_N n ++ rest) None = Some (Z.of_N n).
Proof.
  intros Hr. unfold string_of_N. fold (numeral n).
  rewrite read_digits_run by (auto using numeral_digits, numeral_nonempty).
  rewrite read_digits_stop by assumption. now rewrite numeral_value.
Qed.

Lemma stoi_leading_value s :
  stoi s =
  match leading_value s with
  | None => Throw (invalid_argument "stoi")
  | Some v => if in_int_range v then Ok v else Throw (out_of_range "stoi")
  end.
Proof.
  unfold stoi, leading_value.
  destruct (read_sign (skip_space s)) as [neg body].
  now destruct (read_digits body None).
Qed.

Lemma leading_int_value s :
  leading_int s = true -> exists v, leading_value s = Some v.
Proof.
  unfold leading_int, leading_value.
  destruct (read_sign (skip_space s)) as [neg body]. cbn [snd].
  destruct body as [| c r]; [discriminate |]. intros Hd.
  cbn [read_digits]. rewrite Hd.
  destruct (read_digits r _) as [v |] eqn:Hv; [eauto |].
  now apply read_digits_some in Hv.
Qed.

(** The integer a text begins with is the one whose decimal numeral it
    begins with, however large. *)
Lemma leading_value_numeral z rest :
  head_is_digit rest = false -> leading_value (to_string z ++ rest) = Some z.
Proof.
  intros Hrest. unfold to_string, leading_value.
  destruct (z <? 0) eqn:Hneg.
  - apply Z.ltb_lt in Hneg.
    change (skip_space (String "-" (string_of_N (Z.to_N (- z))) ++ rest))
      with (String "-"%char (string_of_N (Z.to_N (- z)) ++ rest)).
    change (read_sign (String "-" (string_of_N (Z.to_N (- z)) ++ rest)))
      with (true, string_of_N (Z.to_N (- z)) ++ rest).
    cbv iota beta. rewrite read_numeral_then by assumption.
    rewrite Z2N.id by lia. f_equal. lia.
  - apply Z.ltb_ge in Hneg.
    destruct (numeral_head (Z.to_N z)) as (c & r & Hs & Hc).
    assert (Hsk : skip_space (string_of_N (Z.to_N z) ++ rest) =
                  string_of_N (Z.to_N z) ++ rest).
    { rewrite Hs. cbn [append skip_space].
      now rewrite (digit_chars_not_space c Hc). }
    rewrite Hsk. rewrite Hs at 1. cbn [append].
    rewrite (digit_chars_not_sign c (r ++ rest) Hc).
    change (String c (r ++ rest)) with (String c r ++ rest).
    rewrite <- Hs. rewrite read_numeral_then by assumption.
    now rewrite Z2N.id by lia.
Qed.

(** C7, as amended.  [deserialize] fails, before it builds anything,
    when [std::stoi] rejects the first line of the input (the whole input
    when it has no newline): with [std::invalid_argument] when that line
    does not start, after optional white space and an optional sign, with
    a decimal digit, and with [std::out_of_range] when the integer it
    starts with does not fit an [int].  When the line starts with an
    integer that fits, that integer is the cursor whatever follows it on
    the line, and the outcome is the graph reader's on the text behind the
    first newline (on the whole input when there is none).  A line that
    starts with a digit starts with an integer, and the integer a line
    starts with is the one whose numeral it starts with, so the three
    cases are all there are. *)
Theorem deserialize_rejects_non_integer (ser : string) :
  strlen ser < 2 ^ 31 ->
  (leading_int (first_line ser) = false ->
   LoopTreeAgent.deserialize ser = Throw (invalid_argument "stoi")) /\
  (forall v, leading_value (first_line ser) = Some v ->
   in_int_range v = false ->
   LoopTreeAgent.deserialize ser = Throw (out_of_range "stoi")) /\
  (forall v, leading_value (first_line ser) = Some v ->
   in_int_range v = true ->
   LoopTreeAgent.deserialize ser =
   res_bind (loop_tool.deserialize (after_first_line ser))
            (fun ir => Ok (mk (loop_tool.LoopTree_of ir) v))) /\
  (leading_int (first_line ser) = true ->
   exists v, leading_value (first_line ser) = Some v) /\
  (forall z rest, head_is_digit rest = false ->
   leading_value (to_string z ++ rest) = Some z).
Proof.
  intros Hlen. pose proof (deserialize_eq ser Hlen) as Heq.
  rewrite stoi_leading_value in Heq.
  split; [| split; [| split; [| split]]].
  - intros Hl. rewrite deserialize_eq by assumption.
    now rewrite (stoi_no_leading_int _ Hl).
  - intros v Hv Hr. rewrite Heq, Hv, Hr. reflexivity.
  - intros v Hv Hr. rewrite Heq, Hv, Hr. reflexivity.
  - apply leading_int_value.
  - apply leading_value_numeral.
Qed.

End Serialization.

(** ** The engine of the specification *)

Section Focus.
Import SpecEngine.

Lemma size_node_Loop l cs : size_node (Loop l cs) = S (size cs).
Proof. reflexivity. Qed.

Lemma size_node_pos n : (1 <= size_node n)%nat.
Proof. destruct n; simpl; lia. Qed.

Lemma node_in_Loop l cs j : node_in (Loop l cs) (S j) = node_at cs j.
Proof. reflexivity. Qed.

Lemma rewrite_in_Loop f l cs j :
  rewrite_in f (Loop l cs) j = res_map (Loop l) (rewrite_at f cs j).
Proof.
  cbn [rewrite_in]. f_equal. revert j.
  induction cs as [| c rest IH]; intros j; [reflexivity |].
  destruct j as [| j']; [reflexivity |].
  cbn [rewrite_at]. rewrite <- IH. reflexivity.
Qed.

Lemma focus_plug t i here k : focus t i here k -> k here = t.
Proof. induction 1; cbn beta; congruence. Qed.

Lemma focus_nonempty t i here k : focus t i here k -> here <> [].
Proof. induction 1; auto; discriminate. Qed.

Lemma focus_lt t i here k : focus t i here k -> (i < size t)%nat.
Proof.
  induction 1; cbn [size].
  - pose proof (size_node_pos c). lia.
  - rewrite size_node_Loop. lia.
  - lia.
Qed.

Lemma focus_node_at t i here k :
  focus t i here k -> node_at t i = hd_error here.
Proof.
  induction 1 as [c rest | l cs rest j here k H IH | c rest i here k H IH].
  - cbn [node_at hd_error].
    pose proof (size_node_pos c) as Hc.
    replace (0 <? size_node c)%nat with true
      by (symmetry; apply Nat.ltb_lt; lia).
    destruct c; reflexivity.
  - cbn [node_at]. apply focus_lt in H.
    replace (S j <? size_node (Loop l cs))%nat with true
      by (symmetry; apply Nat.ltb_lt; rewrite size_node_Loop; lia).
    now rewrite node_in_Loop.
  - cbn [node_at].
    replace (size_node c + i <? size_node c)%nat with false
      by (symmetry; apply Nat.ltb_ge; lia).
    now replace (size_node c + i - size_node c)%nat with i by lia.
Qed.

Lemma focus_rewrite f t i here k :
  focus t i here k -> rewrite_at f t i = res_map k (f here).
Proof.
  induction 1 as [c rest | l cs rest j here k H IH | c rest i here k H IH].
  - cbn [rewrite_at]. unfold res_map, res_bind. now destruct (f (c :: rest)).
  - cbn [rewrite_at]. apply focus_lt in H.
    replace (S j <? size_node (Loop l cs))%nat with true
      by (symmetry; apply Nat.ltb_lt; rewrite size_node_Loop; lia).
    rewrite rewrite_in_Loop, IH. unfold res_map, res_bind.
    now destruct (f here).
  - pose proof (size_node_pos c) as Hc.
    destruct (size_node c + i)%nat as [| j] eqn:Hi; [lia |].
    cbn [rewrite_at]. rewrite <- Hi.
    replace (size_node c + i <? size_node c)%nat with false
      by (symmetry; apply Nat.ltb_ge; lia).
    replace (size_node c + i - size_node c)%nat with i by lia.
    rewrite IH. unfold res_map, res_bind. now destruct (f here).
Qed.

(** Replacing the focused node by one node keeps its reference. *)
Lemma focus_replace t i n rest k n' :
  focus t i (n :: rest) k -> focus (k (n' :: rest)) i (n' :: rest) k.
Proof.
  remember (n :: rest) as here eqn:Hh. intros H. revert n rest Hh.
  induction H as [c r | l cs r j here k H IH | c r i here k H IH];
    intros n rest Hh.
  - inversion Hh; subst. constructor.
  - constructor. now apply (IH n).
  - constructor. now apply (IH n).
Qed.

Lemma focus_of_node_at bound : forall t i x,
  (size t <= bound)%nat -> node_at t i = Some x ->
  exists rest k, focus t i (x :: rest) k.
Proof.
  induction bound as [| b IH]; intros t i x Hb Hx.
  - destruct t as [| c rest]; [discriminate |].
    cbn [size] in Hb. pose proof (size_node_pos c). lia.
  - destruct t as [| c rest]; [discriminate |].
    cbn [size] in Hb. pose proof (size_node_pos c) as Hc.
    cbn [node_at] in Hx.
    destruct (i <? size_node c)%nat eqn:Hi.
    + destruct i as [| j].
      * assert (x = c) by (destruct c; simpl in Hx; congruence). subst x.
        exists rest, (fun y => y). constructor.
      * destruct c as [l cs | op vs]; [| discriminate].
        rewrite node_in_Loop in Hx. rewrite size_node_Loop in Hb.
        destruct (IH cs j x ltac:(lia) Hx) as (r' & k' & Hf).
        exists r', (fun y => Loop l (k' y) :: rest). now constructor.
    + apply Nat.ltb_ge in Hi.
      destruct (IH rest (i - size_node c)%nat x ltac:(lia) Hx) as (r' & k' & Hf).
      exists r', (fun y => c :: k' y).
      replace i with (size_node c + (i - size_node c))%nat at 1 by lia.
      now constructor.
Qed.

End Focus.

Section EngineFacts.
Import SpecEngine.

Lemma node_ref_focus t ref x :
  node_ref t ref = Some x ->
  (ref <? 0) = false /\
  exists rest k, focus t (Z.to_nat ref) (x :: rest) k.
Proof.
  unfold node_ref. destruct (ref <? 0); [discriminate |].
  intros H. split; [reflexivity |].
  exact (focus_of_node_at (size t) t _ x (Nat.le_refl _) H).
Qed.

Lemma focus_node_ref t ref x rest k :
  (ref <? 0) = false -> focus t (Z.to_nat ref) (x :: rest) k ->
  node_ref t ref = Some x.
Proof.
  intros Hr H. unfold node_ref. rewrite Hr.
  now rewrite (focus_node_at _ _ _ _ H).
Qed.

Lemma focus_on_node g t i n rest k :
  focus t i (n :: rest) k ->
  rewrite_at (on_node g) t i = res_map (fun n' => k (n' :: rest)) (g n).
Proof.
  intros H. rewrite (focus_rewrite _ _ _ _ _ H).
  cbn [on_node]. unfold res_map, res_bind. now destruct (g n).
Qed.

Lemma with_note_id l : with_note (note l) l = l.
Proof. destruct l; reflexivity. Qed.

End EngineFacts.

Section SpecAgent.
Import LoopTreeAgent SpecEngine.
Variable X : External.

#[local] Abbreviation E := (engine X).
#[local] Abbreviation state := (@mk (engine X)).

Lemma agent_merge_eq (t : tree) (c : TreeRef) :
  LoopTreeAgent.merge (E := E) (state t c) =
  match merge t c with
  | Ok t' => (Ok tt, state t' c)
  | Throw e => (Throw e, state t c)
  end.
Proof.
  unfold LoopTreeAgent.merge, bind, call, set_lt. cbn [lt cursor].
  change (@loop_tool.merge E t c) with (merge t c).
  now destruct (merge t c).
Qed.

Lemma agent_annotate_eq (t : tree) (c : TreeRef) (text : string) :
  LoopTreeAgent.annotate (E := E) text (state t c) =
  match annotation t c with
  | Ok current =>
      match annotate t c (if String.eqb current text
                          then EmptyString else text) with
      | Ok t' => (Ok tt, state t' c)
      | Throw e => (Throw e, state t c)
      end
  | Throw e => (Throw e, state t c)
  end.
Proof.
  unfold LoopTreeAgent.annotate, bind, call, set_lt. cbn [lt cursor].
  change (@loop_tool.annotation E t c) with (annotation t c).
  destruct (annotation t c) as [current |]; [| reflexivity].
  destruct (String.eqb current text); cbn [lt cursor];
    match goal with
    | |- context [@loop_tool.annotate E t c ?s] =>
        change (@loop_tool.annotate E t c s) with (annotate t c s);
        now destruct (annotate t c s)
    end.
Qed.

Lemma annotation_at t c l cs :
  node_ref t c = Some (Loop l cs) -> annotation t c = Ok (note l).
Proof.
  unfold node_ref, annotation, at_ref.
  destruct (c <? 0); [discriminate |]. now intros ->.
Qed.

Lemma annotate_at t c l cs rest ctx text :
  (c <? 0) = false ->
  focus t (Z.to_nat c) (Loop l cs :: rest) ctx ->
  annotate t c text = Ok (ctx (Loop (with_note text l) cs :: rest)).
Proof.
  intros Hc Hf. unfold annotate, at_ref. rewrite Hc.
  now rewrite (focus_on_node _ _ _ _ _ _ Hf).
Qed.

(** C3.  On an agent whose cursor refers to a Leaf, [apply_action("merge")]
    fails with the engine's legality error and the agent keeps its tree
    and cursor. *)
Theorem merge_on_leaf_is_illegal (t : tree) (c : TreeRef) op vs :
  node_ref t c = Some (Leaf op vs) ->
  apply_action (E := E) "merge" (state t c) =
  (Throw (runtime_error IllegalMutation "merge: the child is not a sole loop"),
   state t c).
Proof.
  intros Hn. destruct (node_ref_focus _ _ _ Hn) as (Hr & rest & ctx & Hf).
  rewrite (apply_action_found "merge" LoopTreeAgent.merge) by reflexivity.
  rewrite agent_merge_eq. unfold merge, at_ref. rewrite Hr.
  now rewrite (focus_on_node _ _ _ _ _ _ Hf).
Qed.

(** C5, as amended.  On a Loop node that does not already carry the
    annotation, applying [vectorize] (or [unroll]) twice in succession
    succeeds both times: the first application sets the annotation, the
    second clears it, and the node ends unannotated (the tree is the
    original one again when the node was unannotated to begin with). *)
Theorem annotate_twice_clears
        (t : tree) (c : TreeRef) (l : loop) (cs : list node) (name : string) :
  name = "vectorize" \/ name = "unroll" ->
  node_ref t c = Some (Loop l cs) ->
  note l <> name ->
  exists t1 t2,
    apply_action (E := E) name (state t c) = (Ok tt, state t1 c) /\
    node_ref t1 c = Some (Loop (with_note name l) cs) /\
    apply_action (E := E) name (state t1 c) = (Ok tt, state t2 c) /\
    node_ref t2 c = Some (Loop (with_note EmptyString l) cs) /\
    annotation t2 c = Ok EmptyString /\
    (note l = EmptyString -> t2 = t).
Proof.
  intros Hname Hn Hnote.
  destruct (node_ref_focus _ _ _ Hn) as (Hr & rest & ctx & Hf).
  assert (Hact : forall a, apply_action (E := E) name a =
                           LoopTreeAgent.annotate (E := E) name a).
  { intros a. destruct Hname as [-> | ->];
      now rewrite (apply_action_found _ (LoopTreeAgent.annotate _))
        by reflexivity. }
  pose proof (focus_replace _ _ _ _ _ (Loop (with_note name l) cs) Hf) as Hf1.
  pose proof (focus_replace _ _ _ _ _ (Loop (with_note EmptyString l) cs) Hf)
    as Hf2.
  exists (ctx (Loop (with_note name l) cs :: rest)),
         (ctx (Loop (with_note EmptyString l) cs :: rest)).
  split; [| split; [| split; [| split; [| split]]]].
  - rewrite Hact, agent_annotate_eq. rewrite (annotation_at _ _ _ _ Hn).
    replace (String.eqb (note l) name) with false
      by (symmetry; now apply String.eqb_neq).
    now rewrite (annotate_at _ _ _ _ _ _ name Hr Hf).
  - exact (focus_node_ref _ _ _ _ _ Hr Hf1).
  - rewrite Hact, agent_annotate_eq.
    rewrite (annotation_at _ _ _ _ (focus_node_ref _ _ _ _ _ Hr Hf1)).
    cbn [with_note note]. rewrite String.eqb_refl.
    now rewrite (annotate_at _ _ _ _ _ _ EmptyString Hr Hf1).
  - exact (focus_node_ref _ _ _ _ _ Hr Hf2).
  - now rewrite (annotation_at _ _ _ _ (focus_node_ref _ _ _ _ _ Hr Hf2)).
  - intros Hempty. rewrite <- Hempty, with_note_id.
    exact (focus_plug _ _ _ _ Hf).
Qed.

End SpecAgent.

(** ** Concrete runs *)

Section Runs.
Import LoopTreeAgent SpecEngine Demo.

#[local] Abbreviation demo := (@mk Demo.engine).
#[local] Abbreviation faulty := (@mk Demo.faulty_engine).
#[local] Abbreviation checked := (@mk Demo.checked_engine).

(** Names are compared exactly. *)
Example capitalised_name_is_unknown :
  exists text,
    apply_action (E := Demo.engine) "Up" (demo tree64 0) =
    (Throw (runtime_error UnknownAction text), demo tree64 0).
Proof. eexists. reflexivity. Qed.

Example available_at_root :
  fst (get_available_actions (E := Demo.engine) (demo tree_mm 0)) =
  Ok [ "down"; "merge"; "unroll"; "vectorize" ].
Proof. vm_compute. reflexivity. Qed.

(** An exception that is no [std::runtime_error] leaves the loop. *)
Example out_of_range_propagates :
  get_available_actions (E := Demo.checked_engine) (checked tree_mm 0) =
  (Throw (out_of_range "vector::_M_range_check"), checked tree_mm 0).
Proof. reflexivity. Qed.

(** C2, counterexample.  Looking up an input trips an assertion that is
    not a legality failure; the trial loop swallows it all the same and
    returns the other actions. *)
Lemma get_available_actions_swallows_defect :
  fst (apply_action (E := Demo.faulty_engine) "copy_input_0"
         (faulty tree_mm 0)) =
    Throw (runtime_error Defect "assertion: idx < nodes.size() failed ") /\
  kind_of (runtime_error Defect "assertion: idx < nodes.size() failed ")
    <> Some IllegalMutation /\
  fst (get_available_actions (E := Demo.faulty_engine) (faulty tree_mm 0)) =
    Ok [ "down"; "merge"; "unroll"; "vectorize" ].
Proof.
  split; [reflexivity |]. split; [discriminate |]. vm_compute. reflexivity.
Qed.

Lemma get_available_actions_catch_policy_witness :
  fst (apply_action (E := Demo.faulty_engine) "copy_input_0"
         (faulty tree_mm 0)) =
    Throw (runtime_error Defect "assertion: idx < nodes.size() failed ") /\
  trial (E := Demo.faulty_engine) tree_mm 0 "copy_input_0" []
        (faulty tree_mm 0) = (Ok [], faulty tree_mm 0) /\
  (forall l,
     fst (get_available_actions (E := Demo.faulty_engine) (faulty tree_mm 0))
     = Ok l -> ~ In "copy_input_0" l).
Proof.
  split; [reflexivity |].
  destruct (get_available_actions_catch_policy
              (E := Demo.faulty_engine) (faulty tree_mm 0) []
              (List.tl (map_keys (@actions_fn Demo.faulty_engine)))
              "copy_input_0"
              (runtime_error Defect "assertion: idx < nodes.size() failed ")
              [] eq_refl (fun n e H => match H with end) eq_refl)
    as (H1 & H2 & _).
  split; [exact H1 | exact (H2 eq_refl)].
Defined.

Lemma merge_on_leaf_is_illegal_witness :
  node_ref tree_mm 2 = Some (Leaf 0 [0%nat; 1%nat]) /\
  apply_action (E := Demo.engine) "merge" (demo tree_mm 2) =
  (Throw (runtime_error IllegalMutation "merge: the child is not a sole loop"),
   demo tree_mm 2).
Proof.
  split; [reflexivity |].
  apply (merge_on_leaf_is_illegal Demo.external tree_mm 2 0%nat
                                   [0%nat; 1%nat]).
  reflexivity.
Defined.

(** C5, counterexample.  The cursor is on a Loop node that is already
    annotated [vectorize]: the first application clears the annotation,
    the second sets it, and the node ends annotated. *)
Lemma vectorize_twice_on_vectorized_loop :
  node_ref tree_vec 0 =
    Some (Loop (mkloop 0 16 1 "vectorize") [Leaf 0 [0%nat]]) /\
  apply_action (E := Demo.engine) "vectorize" (demo tree_vec 0) =
    (Ok tt, demo [Loop (plain 0 16) [Leaf 0 [0%nat]]] 0) /\
  apply_action (E := Demo.engine) "vectorize"
    (demo [Loop (plain 0 16) [Leaf 0 [0%nat]]] 0) =
    (Ok tt, demo tree_vec 0) /\
  annotation tree_vec 0 = Ok "vectorize" /\
  "vectorize" <> EmptyString.
Proof.
  split; [| split; [| split; [| split]]]; try reflexivity. discriminate.
Qed.

Lemma annotate_twice_clears_witness :
  node_ref tree64 0 = Some (Loop (plain 0 64) [Leaf 0 [0%nat]]) /\
  exists t1 t2,
    apply_action (E := Demo.engine) "vectorize" (demo tree64 0) =
      (Ok tt, demo t1 0) /\
    node_ref t1 0 =
      Some (Loop (with_note "vectorize" (plain 0 64)) [Leaf 0 [0%nat]]) /\
    apply_action (E := Demo.engine) "vectorize" (demo t1 0) =
      (Ok tt, demo t2 0) /\
    node_ref t2 0 =
      Some (Loop (with_note EmptyString (plain 0 64)) [Leaf 0 [0%nat]]) /\
    annotation t2 0 = Ok EmptyString /\
    (note (plain 0 64) = EmptyString -> t2 = tree64).
Proof.
  split; [reflexivity |].
  apply (annotate_twice_clears Demo.external tree64 0 (plain 0 64)
                               [Leaf 0 [0%nat]] "vectorize").
  - left. reflexivity.
  - reflexivity.
  - discriminate.
Defined.

Lemma serialize_round_trip_witness :
  in_int_range 3 = true /\
  exists a',
    LoopTreeAgent.deserialize (E := Demo.engine)
      (LoopTreeAgent.serialize (E := Demo.engine) (demo tree_mm 3)) = Ok a' /\
    cursor a' = 3 /\ lt a' = tree_mm.
Proof.
  split; [reflexivity |].
  assert (Hg : graph_round_trips (E := Demo.engine) eq tree_mm).
  { exists tree_mm. split; reflexivity. }
  destruct (serialize_round_trip (E := Demo.engine) eq (demo tree_mm 3)
              eq_refl Hg) as (_ & _ & H).
  exact H.
Defined.

(** C7, counterexample.  The first line [7up] is no numeral; [std::stoi]
    reads the 7 and ignores the rest, and an agent with cursor 7 is
    built. *)
Lemma deserialize_accepts_trailing_text :
  first_line ("7up" ++ nl ++ write_graph tree64) = "7up" /\
  (forall z, to_string z <> "7up") /\
  LoopTreeAgent.deserialize (E := Demo.engine) ("7up" ++ nl ++ write_graph tree64) =
    Ok (demo tree64 7).
Proof.
  split; [reflexivity |]. split; [| reflexivity].
  intros z H. rewrite to_string_chars in H.
  apply (f_equal list_ascii_of_string) in H.
  rewrite list_ascii_of_string_of_list_ascii in H.
  assert (Ha : Forall (fun c => c = "-"%char \/ In c digit_chars) (to_chars z)).
  { unfold to_chars. destruct (z <? 0).
    - constructor; [now left |].
      eapply Forall_impl; [| apply numeral_digits]. intros c Hc. now right.
    - eapply Forall_impl; [| apply numeral_digits]. intros c Hc. now right. }
  rewrite H in Ha. cbn [list_ascii_of_string] in Ha.
  inversion Ha as [| ? ? _ Ha1]. inversion Ha1 as [| ? ? Hu _].
  destruct Hu as [Hu | Hu]; [discriminate Hu |].
  repeat (destruct Hu as [Hu | Hu]; [discriminate Hu |]). destruct Hu.
Qed.

Lemma deserialize_rejects_non_integer_witness :
  strlen "cursor=3" < 2 ^ 31 /\
  LoopTreeAgent.deserialize (E := Demo.engine) "cursor=3" =
    Throw (invalid_argument "stoi") /\
  strlen ("4294967296" ++ nl ++ write_graph tree64) < 2 ^ 31 /\
  leading_value (first_line ("4294967296" ++ nl ++ write_graph tree64)) =
    Some 4294967296 /\
  LoopTreeAgent.deserialize (E := Demo.engine)
    ("4294967296" ++ nl ++ write_graph tree64) =
    Throw (out_of_range "stoi").
Proof.
  split; [reflexivity |]. split.
  - apply (proj1 (deserialize_rejects_non_integer (E := Demo.engine)
                    "cursor=3" eq_refl)).
    reflexivity.
  - split; [reflexivity |]. split; [reflexivity |].
    apply (proj1 (proj2 (deserialize_rejects_non_integer (E := Demo.engine)
                           ("4294967296" ++ nl ++ write_graph tree64)
                           eq_refl))
                 4294967296); reflexivity.
Defined.

Lemma actions_frame_witness :
  In ("merge",
      fun a : agent Demo.engine => loop_tool.merge (lt a) (cursor a))
     (tree_calls (E := Demo.engine)) /\
  apply_action (E := Demo.engine) "merge" (demo tree_mm 0) =
    (Ok tt,
     demo [Loop (plain 0 32) [Leaf 0 [0%nat; 1%nat]; Leaf 1 [1%nat]];
           Leaf 2 []] 0) /\
  apply_action (E := Demo.engine) "merge" (demo tree_mm 2) =
    (Throw (runtime_error IllegalMutation
              "merge: the child is not a sole loop"),
     demo tree_mm 2).
Proof.
  assert (Hin : In ("merge",
                    fun a : agent Demo.engine =>
                      loop_tool.merge (lt a) (cursor a))
                   (tree_calls (E := Demo.engine)))
    by (unfold tree_calls; do 10 right; left; reflexivity).
  split; [exact Hin |]. split.
  - exact (eq_trans
             (proj1 (proj2 (proj2 (proj2 (proj2
                (actions_frame (E := Demo.engine) "merge"
                               (demo tree_mm 0)))))) _ Hin)
             eq_refl).
  - exact (eq_trans
             (proj1 (proj2 (proj2 (proj2 (proj2
                (actions_frame (E := Demo.engine) "merge"
                               (demo tree_mm 2)))))) _ Hin)
             eq_refl).
Defined.

Lemma get_available_actions_restores_state_witness :
  nothing_escapes (demo tree_mm 3) (map_keys (@actions_fn Demo.engine)) /\
  get_available_actions (E := Demo.engine) (demo tree_mm 3) =
    (Ok ["down"; "up"], demo tree_mm 3).
Proof.
  assert (Hne : nothing_escapes (demo tree_mm 3)
                  (map_keys (@actions_fn Demo.engine))).
  { intros n e Hn He. rewrite actions_fn_sorted in Hn.
    unfold map_keys in Hn. cbn [map fst] in Hn.
    repeat (destruct Hn as [<- | Hn];
            [vm_compute in He; first [discriminate He | now inversion He] |]).
    destruct Hn. }
  split; [exact Hne |].
  destruct (get_available_actions_restores_state
              (E := Demo.engine) (demo tree_mm 3)) as (Hs & _ & _ & _ & Hl).
  specialize (Hl Hne).
  destruct (get_available_actions (demo tree_mm 3)) as [r a'].
  cbn [fst snd] in Hs, Hl. now rewrite Hs, Hl.
Defined.

End Runs.

(* ================================================================== *)
(** * Further properties of the agent's code *)
(* ================================================================== *)

(** ** The name tables as [std::map]s *)

Section MapFacts.
Context {T : Type}.

Lemma key_lt_trans x y z : key_lt x y -> key_lt y z -> key_lt x z.
Proof.
  unfold key_lt. intros Hxy Hyz.
  apply OrderedTypeEx.String_as_OT.cmp_lt.
  apply OrderedTypeEx.String_as_OT.cmp_lt in Hxy, Hyz.
  eapply OrderedTypeEx.String_as_OT.lt_trans; eassumption.
Qed.

Lemma key_lt_neq x y : key_lt x y -> String.eqb x y = false.
Proof.
  unfold key_lt. intros H. apply String.eqb_neq. intros ->.
  assert (He : String.compare y y = Eq)
    by now apply OrderedTypeEx.String_as_OT.cmp_eq.
  congruence.
Qed.

Lemma key_gt_lt x y : String.compare x y = Gt -> key_lt y x.
Proof.
  unfold key_lt. intros H. rewrite String.compare_antisym, H. reflexivity.
Qed.

Lemma map_find_above (m : list (string * T)) k :
  Forall (key_lt k) (map_keys m) -> map_find k m = None.
Proof.
  induction m as [| [k' v'] m IH]; intros H; [reflexivity |].
  inversion H as [| ? ? Hk Hm]; subst. cbn [map_find].
  rewrite (key_lt_neq _ _ Hk). now apply IH.
Qed.

Lemma map_insert_keys_above (m : list (string * T)) k v x :
  key_lt x k -> Forall (key_lt x) (map_keys m) ->
  Forall (key_lt x) (map_keys (map_insert k v m)).
Proof.
  intros Hk. induction m as [| [k' v'] m IH]; intros Hm; cbn [map_insert].
  - constructor; [exact Hk | constructor].
  - inversion Hm as [| ? ? Hk' Hm']; subst.
    destruct (String.compare k k'); cbn [map_keys map fst].
    + exact Hm.
    + constructor; [exact Hk | exact Hm].
    + constructor; [exact Hk' | now apply IH].
Qed.

Lemma map_insert_sorted (m : list (string * T)) k v :
  StronglySorted key_lt (map_keys m) ->
  StronglySorted key_lt (map_keys (map_insert k v m)).
Proof.
  induction m as [| [k' v'] m IH]; intros Hm; cbn [map_insert].
  - repeat constructor.
  - inversion Hm as [| ? ? Hs Hf]; subst.
    destruct (String.compare k k') eqn:Hc; cbn [map_keys map fst].
    + exact Hm.
    + constructor; [exact Hm |].
      constructor; [exact Hc |].
      eapply Forall_impl; [| exact Hf]. intros z. now apply key_lt_trans.
    + constructor; [now apply IH |].
      apply map_insert_keys_above; [now apply key_gt_lt | exact Hf].
Qed.

Lemma map_find_insert (m : list (string * T)) k v x :
  StronglySorted key_lt (map_keys m) ->
  map_find x (map_insert k v m) =
  match map_find x m with
  | Some y => Some y
  | None => if String.eqb x k then Some v else None
  end.
Proof.
  induction m as [| [k' v'] m IH]; intros Hm; cbn [map_insert map_find].
  - reflexivity.
  - inversion Hm as [| ? ? Hs Hf]; subst.
    destruct (String.compare k k') eqn:Hc.
    + apply OrderedTypeEx.String_as_OT.cmp_eq in Hc. subst k'.
      cbn [map_find].
      destruct (String.eqb x k); [reflexivity |].
      now destruct (map_find x m).
    + cbn [map_find]. destruct (String.eqb x k) eqn:Hx; [| now destruct
        (if String.eqb x k' then Some v' else map_find x m)].
      apply String.eqb_eq in Hx. subst x.
      rewrite (key_lt_neq _ _ Hc).
      rewrite map_find_above; [reflexivity |].
      eapply Forall_impl; [| exact Hf]. intros z. now apply key_lt_trans.
    + cbn [map_find]. destruct (String.eqb x k') eqn:Hx; [reflexivity |].
      now apply IH.
Qed.

Lemma map_of_list_from (init : list (string * T)) : forall m,
  StronglySorted key_lt (map_keys m) ->
  StronglySorted key_lt
    (map_keys (fold_left (fun m kv => map_insert (fst kv) (snd kv) m) init m))
  /\
  forall x,
    map_find x (fold_left (fun m kv => map_insert (fst kv) (snd kv) m) init m)
    = match map_find x m with
      | Some y => Some y
      | None => map_find x init
      end.
Proof.
  induction init as [| [k v] init IH]; intros m Hm; cbn [fold_left fst snd].
  - split; [exact Hm |]. intros x. now destruct (map_find x m).
  - destruct (IH (map_insert k v m) (map_insert_sorted m k v Hm)) as [Hs Hf].
    split; [exact Hs |]. intros x. rewrite Hf.
    rewrite (map_find_insert m k v x Hm). cbn [map_find].
    destruct (map_find x m); [reflexivity |].
    now destruct (String.eqb x k).
Qed.

(** X11.  A table built from an initializer list is ordered by key,
    strictly (so no key occurs twice), and looking a key up in it gives
    the first entry the list has for that key, none if it has none. *)
Theorem map_of_list_lookup (init : list (string * T)) (k : string) :
  StronglySorted key_lt (map_keys (map_of_list init)) /\
  map_find k (map_of_list init) = map_find k init /\
  (map_count k (map_of_list init) = 1 <-> In k (map_keys init)) /\
  (map_count k (map_of_list init) = 0 <-> ~ In k (map_keys init)).
Proof.
  destruct (map_of_list_from init [] (SSorted_nil _)) as [Hs Hf].
  split; [exact Hs |]. split; [apply Hf |].
  assert (Hin : forall l : list (string * T),
             (exists v, map_find k l = Some v) <-> In k (map_keys l)).
  { induction l as [| [k' v'] l IH]; cbn [map_find map_keys map fst In].
    - split; [intros [v H]; discriminate | tauto].
    - destruct (String.eqb k k') eqn:Hk.
      + apply String.eqb_eq in Hk. subst. split; [tauto | eauto].
      + apply String.eqb_neq in Hk. rewrite IH. unfold map_keys.
        split; [tauto |]. intros [H | H]; [congruence | exact H]. }
  unfold map_count, map_of_list. rewrite (Hf k). cbn [map_find].
  specialize (Hin init). destruct (map_find k init) as [v |].
  - split; split; try reflexivity; try discriminate.
    + intros _. apply Hin. eauto.
    + intros H. exfalso. apply H. apply Hin. eauto.
  - split; split; try reflexivity; try discriminate.
    + intros H. apply Hin in H. destruct H as [v H]. discriminate.
    + intros _ H. apply Hin in H. destruct H as [v H]. discriminate.
Qed.

End MapFacts.

(** ** Exceptions, metrics and the list of available actions *)

Section AgentExtras.
Import LoopTreeAgent.
Context {E : loop_tool.Engine}.

(** X1.  [apply_action] gives the strong exception guarantee: whatever the
    name and whatever the engine throws, an agent that [apply_action]
    leaves by an exception has the tree and the cursor it had when it was
    called, and so prints the same [dump()]. *)
Theorem apply_action_exception_safe
        (name : string) (a a' : agent E) (e : exn) :
  apply_action name a = (Throw e, a') ->
  a' = a /\ LoopTreeAgent.dump a' = LoopTreeAgent.dump a.
Proof.
  intros H. assert (Ha : a' = a) by exact (atomic_apply_action name a e a' H).
  now subst a'.
Qed.

Lemma metrics_fn_sorted :
  metrics_fn =
  [ ("FLOPS", LoopTreeAgent.FLOPS); ("FLOPs", LoopTreeAgent.FLOPs);
    ("seconds", LoopTreeAgent.seconds) ].
Proof. reflexivity. Qed.

Lemma eval_found run metric f (a : agent E) :
  map_find metric metrics_fn = Some f -> eval run metric a = f run a.
Proof.
  intros H. unfold eval, bind, call, loop_tool.ASSERT, map_count, map_at.
  rewrite H. reflexivity.
Qed.

Lemma eval_missing run metric (a : agent E) :
  map_find metric metrics_fn = None ->
  eval run metric a =
  (Throw (runtime_error UnknownMetric
            (loop_tool.assert_head "metrics_fn.count(metric) > 0" ++
             help_metrics)), a).
Proof.
  intros H. unfold eval, bind, call, loop_tool.ASSERT, map_count.
  rewrite H. reflexivity.
Qed.

Lemma eval_keeps_state run metric (a : agent E) : snd (eval run metric a) = a.
Proof.
  destruct (map_find metric metrics_fn) as [f |] eqn:Hf.
  - rewrite (eval_found _ _ _ _ Hf). apply map_find_in in Hf.
    rewrite metrics_fn_sorted in Hf.
    destruct Hf as [Hf | [Hf | [Hf | []]]]; inversion Hf; reflexivity.
  - now rewrite (eval_missing _ _ _ Hf).
Qed.

(** X2.  [eval] never changes the agent.  It dispatches on exactly three
    names, compared character by character ([FLOPs] and [FLOPS] are two
    metrics), handing the tree to the engine function of that name and
    passing on what it returns or throws, whatever the run of the backend
    the call observes; for every other string it throws the unknown-metric
    error, whose text ends with the help listing, in which each of the
    three names has its line. *)
Theorem eval_dispatch (run : loop_tool.Run) (metric : string) (a : agent E) :
  snd (eval run metric a) = a /\
  eval run "FLOPs" a = (loop_tool.FLOPs (lt a), a) /\
  eval run "FLOPS" a = (loop_tool.FLOPS run (lt a), a) /\
  eval run "seconds" a = (loop_tool.eval_runtime run (lt a), a) /\
  (~ In metric metric_names ->
   eval run metric a =
   (Throw (runtime_error UnknownMetric
             (loop_tool.assert_head "metrics_fn.count(metric) > 0" ++
              help_metrics)), a)) /\
  (forall n, In n metric_names ->
   exists before after, help_metrics = before ++ n ++ endl ++ after).
Proof.
  split; [apply eval_keeps_state |].
  split; [now rewrite (eval_found run "FLOPs" LoopTreeAgent.FLOPs) |].
  split; [now rewrite (eval_found run "FLOPS" LoopTreeAgent.FLOPS) |].
  split; [now rewrite (eval_found run "seconds" LoopTreeAgent.seconds) |].
  split.
  - intros H. apply eval_missing. apply map_find_none.
    rewrite metrics_fn_sorted. unfold map_keys. cbn [map fst].
    intros Hk. apply H. unfold metric_names.
    destruct Hk as [<- | [<- | [<- | []]]]; cbn [In]; tauto.
  - intros n Hn. unfold help_metrics. rewrite fold_listing.
    assert (Hk : In n (map_keys (@metrics_fn E))).
    { rewrite metrics_fn_sorted. unfold map_keys. cbn [map fst].
      unfold metric_names in Hn.
      destruct Hn as [<- | [<- | [<- | []]]]; cbn [In]; tauto. }
    destruct (listing_includes _ _ Hk) as (before & after & H).
    exists (("Available metrics are:" ++ endl) ++ before), after.
    rewrite H. now rewrite !append_assoc.
Qed.

Lemma eval_FLOPs_static run (a : agent E) :
  fst (eval run "FLOPs" a) = loop_tool.FLOPs (lt a).
Proof. now rewrite (eval_found run "FLOPs" LoopTreeAgent.FLOPs). Qed.

(** X3.  The static metric does not depend on the cursor, nor on when it
    is asked for: [eval("FLOPs")] returns (or throws) after [up] and after
    [down] what it returns before, whether the move succeeds or fails, and
    the same holds after any action that fails.  Nothing of the kind is
    stated for [FLOPS] and [seconds], which measure a run. *)
Theorem metrics_ignore_navigation
        (run run' : loop_tool.Run) (name : string) (a : agent E) :
  fst (eval run' "FLOPs" (snd (apply_action "up" a))) =
    fst (eval run "FLOPs" a) /\
  fst (eval run' "FLOPs" (snd (apply_action "down" a))) =
    fst (eval run "FLOPs" a) /\
  (succeeds (fst (apply_action name a)) = false ->
   fst (eval run' "FLOPs" (snd (apply_action name a))) =
     fst (eval run "FLOPs" a)).
Proof.
  rewrite !eval_FLOPs_static. split; [| split].
  - rewrite (apply_action_found "up" up) by reflexivity. rewrite up_eq.
    now destruct (loop_tool.previous_ref (lt a) (cursor a)).
  - rewrite (apply_action_found "down" down) by reflexivity. rewrite down_eq.
    now destruct (loop_tool.next_ref (lt a) (cursor a)).
  - destruct (apply_action name a) as [r a'] eqn:Ha. cbn [fst snd].
    destruct r as [u | e]; [discriminate |]. intros _.
    now rewrite (atomic_apply_action name a e a' Ha).
Qed.

Lemma swap_up_eq (a : agent E) :
  swap_up a =
  match loop_tool.previous_ref (lt a) (cursor a) with
  | Ok other =>
      match loop_tool.try_swap (lt a) (cursor a) other with
      | Ok t => (Ok tt, mk t (cursor a))
      | Throw e => (Throw e, a)
      end
  | Throw e => (Throw e, a)
  end.
Proof.
  unfold swap_up, bind, call, set_lt, res_bind.
  destruct (loop_tool.previous_ref (lt a) (cursor a)) as [o |]; [| reflexivity].
  now destruct (loop_tool.try_swap (lt a) (cursor a) o).
Qed.

Lemma swap_down_eq (a : agent E) :
  swap_down a =
  match loop_tool.next_ref (lt a) (cursor a) with
  | Ok other =>
      match loop_tool.try_swap (lt a) (cursor a) other with
      | Ok t => (Ok tt, mk t (cursor a))
      | Throw e => (Throw e, a)
      end
  | Throw e => (Throw e, a)
  end.
Proof.
  unfold swap_down, bind, call, set_lt, res_bind.
  destruct (loop_tool.next_ref (lt a) (cursor a)) as [o |]; [| reflexivity].
  now destruct (loop_tool.try_swap (lt a) (cursor a) o).
Qed.

(** X6.  A swap needs the neighbour it swaps with: where [up] fails,
    [swap_up] fails with the same exception without asking the engine to
    swap, and likewise [swap_down] where [down] fails.  So whenever
    [swap_up] can be applied [up] can, and whenever [swap_down] can be
    applied [down] can. *)
Theorem swap_needs_neighbour (a : agent E) :
  (forall e, fst (apply_action "up" a) = Throw e ->
             apply_action "swap_up" a = (Throw e, a)) /\
  (forall e, fst (apply_action "down" a) = Throw e ->
             apply_action "swap_down" a = (Throw e, a)) /\
  (trial_ok a "swap_up" = true -> trial_ok a "up" = true) /\
  (trial_ok a "swap_down" = true -> trial_ok a "down" = true).
Proof.
  unfold trial_ok.
  rewrite (apply_action_found "up" up) by reflexivity.
  rewrite (apply_action_found "down" down) by reflexivity.
  rewrite (apply_action_found "swap_up" swap_up) by reflexivity.
  rewrite (apply_action_found "swap_down" swap_down) by reflexivity.
  rewrite up_eq, down_eq, swap_up_eq, swap_down_eq.
  destruct (loop_tool.previous_ref (lt a) (cursor a)) as [p | ep];
    destruct (loop_tool.next_ref (lt a) (cursor a)) as [n | en];
    cbn [fst succeeds];
    repeat split; intros; try discriminate; try congruence.
Qed.

End AgentExtras.

Section AvailableActions.
Import LoopTreeAgent.
Context {E : loop_tool.Engine}.

Lemma keys_sorted : StronglySorted key_lt (map_keys (@actions_fn E)).
Proof.
  exact (proj1 (map_of_list_from actions_init [] (SSorted_nil _))).
Qed.

Lemma registered_keys name :
  In name registered_names -> In name (map_keys (@actions_fn E)).
Proof.
  rewrite actions_fn_sorted. unfold map_keys, registered_names.
  cbn [map fst]. intros H.
  repeat (destruct H as [<- | H]; [cbn [In]; tauto |]). destruct H.
Qed.

Lemma filter_sorted (p : string -> bool) l :
  StronglySorted key_lt l -> StronglySorted key_lt (filter p l).
Proof.
  induction 1 as [| x l Hs IH Hf]; cbn [filter]; [constructor |].
  destruct (p x); [| exact IH].
  constructor; [exact IH |].
  apply Forall_forall. intros y Hy. apply filter_In in Hy.
  rewrite Forall_forall in Hf. now apply Hf.
Qed.

Lemma sorted_nodup l : StronglySorted key_lt l -> NoDup l.
Proof.
  induction 1 as [| x l Hs IH Hf]; constructor; [| exact IH].
  intros Hin. rewrite Forall_forall in Hf. specialize (Hf x Hin).
  apply key_lt_neq in Hf. now rewrite String.eqb_refl in Hf.
Qed.

Lemma filter_length_le (p : string -> bool) l :
  (List.length (filter p l) <= List.length l)%nat.
Proof.
  induction l as [| x l IH]; cbn [filter]; [lia |].
  destruct (p x); cbn [List.length]; lia.
Qed.

(** A scan that returns met no exception other than runtime errors. *)
Lemma scan_ok_runtime (a : agent E) names : forall available l,
  scan a names available = Ok l -> nothing_escapes a names.
Proof.
  induction names as [| n rest IH]; intros available l H m e Hm He.
  - destruct Hm.
  - cbn [scan] in H. destruct Hm as [<- | Hm].
    + rewrite He in H. destruct (is_runtime_error e); [reflexivity |].
      discriminate.
    + destruct (fst (apply_action n a)) as [u | e'].
      * exact (IH _ _ H m e Hm He).
      * destruct (is_runtime_error e'); [| discriminate].
        exact (IH _ _ H m e Hm He).
Qed.

(** X4.  The list [get_available_actions] returns is in the order of the
    keys of the table (strictly increasing as [std::string]s, hence
    without repetition), has at most 19 entries, and holds exactly the
    registered names whose application from the current state succeeds;
    every registered name left out fails there with a
    [std::runtime_error]. *)
Theorem available_actions_shape (a : agent E) (l : list string) :
  fst (get_available_actions a) = Ok l ->
  StronglySorted key_lt l /\
  NoDup l /\
  (List.length l <= 19)%nat /\
  (forall n, In n l <->
             In n registered_names /\
             succeeds (fst (apply_action n a)) = true) /\
  (forall n, In n registered_names -> ~ In n l ->
             exists kind what,
               fst (apply_action n a) = Throw (runtime_error kind what)).
Proof.
  intros H. rewrite get_available_actions_eq in H. cbn [fst] in H.
  pose proof (scan_ok_runtime a _ _ _ H) as Hrt.
  apply scan_ok in H. cbn [app] in H. subst l.
  assert (Hs : StronglySorted key_lt
                 (filter (trial_ok a) (map_keys (@actions_fn E))))
    by (apply filter_sorted, keys_sorted).
  split; [exact Hs |]. split; [now apply sorted_nodup |]. split.
  { etransitivity; [apply filter_length_le |].
    rewrite actions_fn_sorted. unfold map_keys. cbn [map List.length]. lia. }
  split.
  - intros n. rewrite filter_In. unfold trial_ok. split.
    + intros [Hk Hok]. split; [now apply keys_registered | exact Hok].
    + intros [Hr Hok]. split; [now apply registered_keys | exact Hok].
  - intros n Hr Hn. rewrite filter_In in Hn. unfold trial_ok in Hn.
    apply registered_keys in Hr.
    destruct (fst (apply_action n a)) as [u | e] eqn:He.
    + exfalso. apply Hn. now split.
    + specialize (Hrt n e Hr He). destruct e; try discriminate. eauto.
Qed.

Lemma numeral_inj n1 n2 : numeral n1 = numeral n2 -> n1 = n2.
Proof.
  intros H. apply N2Z.inj. rewrite <- (numeral_value n1), <- (numeral_value n2).
  now rewrite H.
Qed.

Lemma numeral_no_minus n l : numeral n <> "-"%char :: l.
Proof.
  intros H. pose proof (numeral_digits n) as Hd. rewrite H in Hd.
  inversion Hd as [| ? ? Hm _].
  repeat (destruct Hm as [Hm | Hm]; [discriminate Hm |]). destruct Hm.
Qed.

(** [std::to_string] writes different numerals for different integers. *)
Lemma to_string_inj z1 z2 : to_string z1 = to_string z2 -> z1 = z2.
Proof.
  rewrite !to_string_chars. intros H.
  apply (f_equal list_ascii_of_string) in H.
  rewrite !list_ascii_of_string_of_list_ascii in H.
  unfold to_chars in H.
  destruct (z1 <? 0) eqn:H1; destruct (z2 <? 0) eqn:H2.
  - inversion H as [Hn]. apply numeral_inj in Hn.
    apply Z.ltb_lt in H1, H2. lia.
  - symmetry in H. now apply numeral_no_minus in H.
  - now apply numeral_no_minus in H.
  - apply numeral_inj in H. apply Z.ltb_ge in H1, H2. lia.
Qed.

(** X5.  The name [split_k] is registered exactly for the eight sizes
    2, 4, ..., 256, and then runs [split(k)]: the size an action splits by
    is the number in its name.  For every other integer the name is an
    unknown action. *)
Theorem split_names (k : Z) (a : agent E) :
  (In k (map snd split_sizes) ->
   apply_action ("split_" ++ to_string k) a = LoopTreeAgent.split k a) /\
  (~ In k (map snd split_sizes) ->
   apply_action ("split_" ++ to_string k) a =
   (Throw (runtime_error UnknownAction
             (loop_tool.assert_head "actions_fn.count(action) > 0" ++
              help_actions)), a)).
Proof.
  split.
  - unfold split_sizes. cbn [map snd]. intros H.
    repeat (destruct H as [<- | H];
            [now rewrite (apply_action_found _ (LoopTreeAgent.split _))
               by reflexivity |]).
    destruct H.
  - intros H. apply apply_action_missing. apply map_find_none.
    rewrite actions_fn_sorted. unfold map_keys. cbn [map fst].
    intros Hk. apply H. unfold split_sizes. cbn [map snd].
    repeat (destruct Hk as [Hk | Hk];
            [cbn [append] in Hk;
             first [ discriminate Hk
                   | injection Hk as Hk;
                     match type of Hk with
                     | ?s = to_string _ =>
                         let z := eval vm_compute in
                                    (eat (list_ascii_of_string s) 0) in
                         apply (to_string_inj z k) in Hk
                     end;
                     subst k; cbn [In]; tauto ] |]).
    destruct Hk.
Qed.

End AvailableActions.

(** ** More on [serialize] and [deserialize] *)

Section SerializationExtras.
Import LoopTreeAgent.
Context {E : loop_tool.Engine}.

Lemma behind_nl_chars l rest :
  Forall (fun c => Ascii.eqb c nl_char = false) l ->
  behind_nl (string_of_list_ascii l ++ rest) = behind_nl rest /\
  first_line (string_of_list_ascii l ++ String nl_char rest) =
    string_of_list_ascii l.
Proof.
  induction 1 as [| c l Hc Hl [IH1 IH2]];
    cbn [string_of_list_ascii append behind_nl first_line].
  - rewrite Ascii.eqb_refl. split; reflexivity.
  - rewrite Hc. split; [exact IH1 | now rewrite IH2].
Qed.

Lemma line_split s rest :
  behind_nl s = None ->
  first_line (s ++ String nl_char rest) = s /\
  after_first_line (s ++ String nl_char rest) = rest.
Proof.
  intros Hs.
  assert (H : first_line (s ++ String nl_char rest) = s /\
              behind_nl (s ++ String nl_char rest) = Some rest).
  { induction s as [| c s IH]; cbn [append first_line behind_nl] in *.
    - rewrite Ascii.eqb_refl. split; reflexivity.
    - destruct (Ascii.eqb c nl_char); [discriminate |].
      destruct (IH Hs) as [IH1 IH2]. split; [now rewrite IH1 | exact IH2]. }
  destruct H as [H1 H2]. split; [exact H1 |].
  unfold after_first_line. now rewrite H2.
Qed.

Lemma append_inj_l s x y : s ++ x = s ++ y -> x = y.
Proof.
  induction s as [| c s IH]; cbn [append]; intros H; [exact H |].
  injection H as H. now apply IH.
Qed.

(** X7.  The text [serialize] writes determines the cursor and the graph
    text: two agents with the same serialization have the same cursor and
    graphs that serialize alike. *)
Theorem serialize_injective (a b : agent E) :
  LoopTreeAgent.serialize a = LoopTreeAgent.serialize b ->
  cursor a = cursor b /\
  loop_tool.serialize (loop_tool.lt_ir (lt a)) =
  loop_tool.serialize (loop_tool.lt_ir (lt b)).
Proof.
  unfold LoopTreeAgent.serialize. intros H.
  assert (Hc : cursor a = cursor b).
  { apply (f_equal first_line) in H.
    change (nl ++ loop_tool.serialize (loop_tool.lt_ir (lt a)))
      with (String nl_char (loop_tool.serialize (loop_tool.lt_ir (lt a))))
      in H.
    change (nl ++ loop_tool.serialize (loop_tool.lt_ir (lt b)))
      with (String nl_char (loop_tool.serialize (loop_tool.lt_ir (lt b))))
      in H.
    rewrite !to_string_chars in H.
    rewrite !(proj2 (behind_nl_chars _ _ (to_chars_no_nl _))) in H.
    rewrite <- !to_string_chars in H. now apply to_string_inj. }
  split; [exact Hc |]. rewrite Hc in H. apply append_inj_l in H.
  now injection H.
Qed.

(** [std::stoi] stops reading at the first character that is no digit. *)
Lemma stoi_numeral_then z rest :
  in_int_range z = true -> head_is_digit rest = false ->
  stoi (to_string z ++ rest) = Ok z.
Proof.
  intros Hr Hrest. unfold to_string, stoi.
  destruct (z <? 0) eqn:Hneg.
  - apply Z.ltb_lt in Hneg.
    change (skip_space (String "-" (string_of_N (Z.to_N (- z))) ++ rest))
      with (String "-"%char (string_of_N (Z.to_N (- z)) ++ rest)).
    change (read_sign (String "-" (string_of_N (Z.to_N (- z)) ++ rest)))
      with (true, string_of_N (Z.to_N (- z)) ++ rest).
    cbv iota beta. rewrite read_numeral_then by assumption.
    rewrite Z2N.id by lia. replace (- - z) with z by lia. now rewrite Hr.
  - apply Z.ltb_ge in Hneg.
    destruct (numeral_head (Z.to_N z)) as (c & r & Hs & Hc).
    assert (Hsk : skip_space (string_of_N (Z.to_N z) ++ rest) =
                  string_of_N (Z.to_N z) ++ rest).
    { rewrite Hs. cbn [append skip_space].
      now rewrite (digit_chars_not_space c Hc). }
    rewrite Hsk. rewrite Hs at 1. cbn [append].
    rewrite (digit_chars_not_sign c (r ++ rest) Hc).
    change (String c (r ++ rest)) with (String c r ++ rest).
    rewrite <- Hs. rewrite read_numeral_then by assumption.
    rewrite Z2N.id by lia. now rewrite Hr.
Qed.

Lemma behind_nl_to_string c rest :
  behind_nl (to_string c ++ rest) = behind_nl rest.
Proof.
  rewrite to_string_chars.
  exact (proj1 (behind_nl_chars _ rest (to_chars_no_nl c))).
Qed.

(** X8.  [deserialize] reads the cursor from the digits the first line
    starts with and skips the rest of that line: a cursor line followed,
    before its newline, by text that does not go on with a digit is read
    as the cursor line alone. *)
Theorem deserialize_ignores_rest_of_line (c : Z) (junk g : string) :
  in_int_range c = true ->
  head_is_digit junk = false ->
  behind_nl junk = None ->
  strlen (to_string c ++ junk ++ nl ++ g) < 2 ^ 31 ->
  LoopTreeAgent.deserialize (to_string c ++ junk ++ nl ++ g) =
  LoopTreeAgent.deserialize (to_string c ++ nl ++ g).
Proof.
  intros Hc Hj Hnl Hlen. rewrite (deserialize_lines c g Hc).
  rewrite (deserialize_eq _ Hlen).
  assert (Hb : behind_nl (to_string c ++ junk) = None)
    by now rewrite behind_nl_to_string.
  change (nl ++ g) with (String nl_char g).
  rewrite <- (append_assoc (to_string c) junk (String nl_char g)).
  destruct (line_split (to_string c ++ junk) g Hb) as [H1 H2].
  rewrite H1, H2. now rewrite (stoi_numeral_then c junk Hc Hj).
Qed.

(** X9.  White space in front of the cursor line is skipped: when the
    input has a newline, one more blank (any [isspace] character but the
    newline itself) in front of it changes nothing. *)
Theorem deserialize_skips_leading_blank (ch : ascii) (ser : string) :
  is_space ch = true ->
  Ascii.eqb ch nl_char = false ->
  behind_nl ser <> None ->
  strlen (String ch ser) < 2 ^ 31 ->
  LoopTreeAgent.deserialize (String ch ser) = LoopTreeAgent.deserialize ser.
Proof.
  intros Hsp Hnl Hb Hlen.
  assert (Hlen' : strlen ser < 2 ^ 31).
  { unfold strlen in *. cbn [String.length] in Hlen. lia. }
  rewrite (deserialize_eq _ Hlen), (deserialize_eq _ Hlen').
  unfold after_first_line. cbn [first_line behind_nl]. rewrite Hnl.
  assert (Hst : forall s, stoi (String ch s) = stoi s).
  { intros s. unfold stoi. cbn [skip_space]. now rewrite Hsp. }
  rewrite Hst. destruct (behind_nl ser); [reflexivity | congruence].
Qed.

Lemma stoi_range s z : stoi s = Ok z -> in_int_range z = true.
Proof.
  unfold stoi. destruct (read_sign (skip_space s)) as [neg body].
  destruct (read_digits body None) as [v |]; [| discriminate].
  destruct (in_int_range (if neg then - v else v)) eqn:Hr; [| discriminate].
  intros H. inversion H. now subst.
Qed.

(** X10.  What [deserialize] returns comes from its input and from
    nothing else.  An agent it returns has a cursor within the range of
    [int]; on an input shorter than 2^31 characters that cursor is what
    [std::stoi] reads on the first line, and the tree is the one the
    [LoopTree] constructor builds from what the graph reader returned on
    the text behind the first newline (the whole input when there is
    none); when the graph reader throws on that text, [deserialize]
    returns no agent. *)
Theorem deserialize_result (ser : string) :
  (forall a, LoopTreeAgent.deserialize ser = Ok a ->
   in_int_range (cursor a) = true) /\
  (strlen ser < 2 ^ 31 ->
   (forall a, LoopTreeAgent.deserialize ser = Ok a ->
    stoi (first_line ser) = Ok (cursor a) /\
    exists ir,
      loop_tool.deserialize (after_first_line ser) = Ok ir /\
      lt a = loop_tool.LoopTree_of ir) /\
   (forall e, loop_tool.deserialize (after_first_line ser) = Throw e ->
    succeeds (LoopTreeAgent.deserialize (E := E) ser) = false)).
Proof.
  split.
  - intros a. unfold LoopTreeAgent.deserialize.
    destruct (substr ser 0 _) as [line |]; [| discriminate]. cbn [res_bind].
    destruct (stoi line) as [c |] eqn:Hc; [| discriminate]. cbn [res_bind].
    destruct (substr ser _ (strlen ser)) as [rest |]; [| discriminate].
    cbn [res_bind].
    destruct (loop_tool.deserialize rest) as [ir |]; [| discriminate].
    cbn [res_bind]. intros H. inversion H. cbn [cursor].
    exact (stoi_range _ _ Hc).
  - intros Hlen. rewrite (deserialize_eq ser Hlen).
    destruct (stoi (first_line ser)) as [c |]; cbn [res_bind].
    + destruct (loop_tool.deserialize (after_first_line ser)) as [ir |];
        cbn [res_bind]; split.
      * intros a H. inversion H. cbn [cursor lt]. eauto.
      * discriminate.
      * discriminate.
      * reflexivity.
    + split; [discriminate | reflexivity].
Qed.

End SerializationExtras.

(** ** Concrete runs of the further properties *)

Section MoreRuns.
Import LoopTreeAgent SpecEngine Demo.

#[local] Abbreviation demo := (@mk Demo.engine).

Lemma apply_action_exception_safe_witness :
  apply_action (E := Demo.engine) "up" (demo tree_mm 0) =
    (Throw (runtime_error IllegalMutation "no previous node"),
     demo tree_mm 0) /\
  LoopTreeAgent.dump (E := Demo.engine) (demo tree_mm 0) =
  LoopTreeAgent.dump (E := Demo.engine) (demo tree_mm 0).
Proof.
  assert (H : apply_action (E := Demo.engine) "up" (demo tree_mm 0) =
              (Throw (runtime_error IllegalMutation "no previous node"),
               demo tree_mm 0)) by reflexivity.
  split; [exact H |].
  exact (proj2 (apply_action_exception_safe
                  (E := Demo.engine) "up" (demo tree_mm 0) (demo tree_mm 0)
                  (runtime_error IllegalMutation "no previous node") H)).
Defined.

Lemma available_actions_shape_witness :
  fst (get_available_actions (E := Demo.engine) (demo tree_mm 3)) =
    Ok ["down"; "up"] /\
  StronglySorted key_lt ["down"; "up"] /\
  NoDup ["down"; "up"].
Proof.
  assert (H : fst (get_available_actions (E := Demo.engine) (demo tree_mm 3))
              = Ok ["down"; "up"]) by (vm_compute; reflexivity).
  split; [exact H |].
  destruct (available_actions_shape (E := Demo.engine) (demo tree_mm 3)
              ["down"; "up"] H) as (Hs & Hn & _).
  split; assumption.
Defined.

Lemma serialize_injective_witness :
  LoopTreeAgent.serialize (E := Demo.engine) (demo tree_mm 3) =
  LoopTreeAgent.serialize (E := Demo.engine) (demo tree_mm 3) /\
  cursor (demo tree_mm 3) = cursor (demo tree_mm 3).
Proof.
  split; [reflexivity |].
  exact (proj1 (serialize_injective (E := Demo.engine)
                  (demo tree_mm 3) (demo tree_mm 3) eq_refl)).
Defined.

Lemma deserialize_ignores_rest_of_line_witness :
  in_int_range 7 = true /\
  head_is_digit "up" = false /\
  behind_nl "up" = None /\
  LoopTreeAgent.deserialize (E := Demo.engine)
    (to_string 7 ++ "up" ++ nl ++ write_graph tree64) =
  LoopTreeAgent.deserialize (E := Demo.engine)
    (to_string 7 ++ nl ++ write_graph tree64).
Proof.
  split; [reflexivity |]. split; [reflexivity |]. split; [reflexivity |].
  apply (deserialize_ignores_rest_of_line (E := Demo.engine)
           7 "up" (write_graph tree64));
    first [reflexivity | vm_compute; reflexivity].
Defined.

Lemma deserialize_skips_leading_blank_witness :
  is_space " " = true /\
  behind_nl ("3" ++ nl ++ write_graph tree64) <> None /\
  LoopTreeAgent.deserialize (E := Demo.engine)
    (String " " ("3" ++ nl ++ write_graph tree64)) =
  LoopTreeAgent.deserialize (E := Demo.engine)
    ("3" ++ nl ++ write_graph tree64).
Proof.
  assert (Hb : behind_nl ("3" ++ nl ++ write_graph tree64) <> None)
    by discriminate.
  split; [reflexivity |]. split; [exact Hb |].
  apply (deserialize_skips_leading_blank (E := Demo.engine)
           " "%char ("3" ++ nl ++ write_graph tree64));
    first [exact Hb | reflexivity | vm_compute; reflexivity].
Defined.

Lemma deserialize_result_witness :
  strlen (LoopTreeAgent.serialize (E := Demo.engine) (demo tree_mm 3))
    < 2 ^ 31 /\
  LoopTreeAgent.deserialize (E := Demo.engine)
    (LoopTreeAgent.serialize (E := Demo.engine) (demo tree_mm 3)) =
    Ok (demo tree_mm 3) /\
  in_int_range (cursor (demo tree_mm 3)) = true /\
  stoi (first_line
          (LoopTreeAgent.serialize (E := Demo.engine) (demo tree_mm 3))) =
    Ok 3 /\
  loop_tool.deserialize (Engine := Demo.engine) "L 0 0 8" =
    Throw (runtime_error MalformedSerialization "unknown line") /\
  succeeds (LoopTreeAgent.deserialize (E := Demo.engine)
              ("3" ++ nl ++ "L 0 0 8")) = false.
Proof.
  assert (H : LoopTreeAgent.deserialize (E := Demo.engine)
                (LoopTreeAgent.serialize (E := Demo.engine) (demo tree_mm 3))
              = Ok (demo tree_mm 3)) by reflexivity.
  split; [reflexivity |]. split; [exact H |].
  destruct (deserialize_result (E := Demo.engine)
              (LoopTreeAgent.serialize (E := Demo.engine) (demo tree_mm 3)))
    as [Hr Ht].
  split; [exact (Hr _ H) |].
  split; [exact (proj1 (proj1 (Ht eq_refl) _ H)) |].
  split; [reflexivity |].
  exact (proj2 (proj2 (deserialize_result (E := Demo.engine)
                         ("3" ++ nl ++ "L 0 0 8")) eq_refl)
               (runtime_error MalformedSerialization "unknown line")
               eq_refl).
Defined.

End MoreRuns.
